(** * Gun key-point annotation tool: annotation state, undo/redo, hit test
      and the pose-format codec of [KeypointAnnotationTool.py].

    The development is a shallow embedding of the Python source:

    - A Python number is the rational [Q] it denotes; an [int] is a
      rational of the form [inject_Z z].  A [float] is an IEEE 754 binary64
      number, and every [float] operation gives its exact result rounded
      to the nearest binary64 number, ties to the even significand
      ([binary64]).  Infinities, not-a-number and the sign of zero are
      outside the model.
    - Python [str] is [list ascii]; dictionary keys (part names) are
      [string]s; a [dict] is an association list in insertion order.
    - [Skeleton] objects live in an object table ([heap]) and are named by
      their index, so that the skeleton list, the undo/redo records and the
      two selections share objects exactly as the Python references do.
    - A Python exception ([KeyError], [ValueError]) is the result [None]. *)

From Stdlib Require Import ZArith QArith Qabs Qround Qpower String Ascii List
  Lia Lqa.
From stdpp Require Import base option list gmap strings.

Local Open Scope Z_scope.

(** ** Python built-ins used by the tool *)

Definition str := list ascii.

(** [str.isspace] on the ASCII range. *)
Definition is_space (c : ascii) : bool :=
  let n := nat_of_ascii c in
  ((9 <=? n)%nat && (n <=? 13)%nat) || ((28 <=? n)%nat && (n <=? 32)%nat).

(** [s.split()]: maximal runs of non-blank characters; [cur] is the run
    being read, newest character first. *)
Fixpoint split_from (cur : str) (s : str) : list str :=
  match s with
  | [] => match cur with [] => [] | _ => [rev cur] end
  | c :: s' =>
      if is_space c
      then match cur with
           | [] => split_from [] s'
           | _ => rev cur :: split_from [] s'
           end
      else split_from (c :: cur) s'
  end.

Definition split (s : str) : list str := split_from [] s.

Fixpoint lstrip (s : str) : str :=
  match s with
  | c :: s' => if is_space c then lstrip s' else s
  | [] => []
  end.

Fixpoint rstrip (s : str) : str :=
  match s with
  | [] => []
  | c :: s' =>
      match rstrip s' with
      | [] => if is_space c then [] else [c]
      | r => c :: r
      end
  end.

(** [s.strip()] *)
Definition strip (s : str) : str := rstrip (lstrip s).

(** [sep.join(items)] *)
Fixpoint join (sep : str) (items : list str) : str :=
  match items with
  | [] => []
  | [x] => x
  | x :: rest => x ++ sep ++ join sep rest
  end.

Definition newline : ascii := ascii_of_nat 10.

(** [f.readlines()]: the text cut after every line feed, which stays at
    the end of its line. *)
Fixpoint readlines_from (cur : str) (s : str) : list str :=
  match s with
  | [] => match cur with [] => [] | _ => [rev cur] end
  | c :: s' =>
      if Ascii.eqb c newline
      then rev (c :: cur) :: readlines_from [] s'
      else readlines_from (c :: cur) s'
  end.

Definition readlines (s : str) : list str := readlines_from [] s.

Definition digit_val (c : ascii) : option Z :=
  let n := nat_of_ascii c in
  if (48 <=? n)%nat && (n <=? 57)%nat then Some (Z.of_nat n - 48) else None.

Definition digit_char (d : Z) : ascii := ascii_of_nat (48 + Z.to_nat d).

(** Reading a run of decimal digits, most significant first. *)
Fixpoint parse_digits (acc : Z) (s : str) : option Z :=
  match s with
  | [] => Some acc
  | c :: s' => d ← digit_val c; parse_digits (10 * acc + d) s'
  end.

Definition split_sign (s : str) : bool * str :=
  match s with
  | c :: r =>
      if Ascii.eqb c "-" then (true, r)
      else if Ascii.eqb c "+" then (false, r)
      else (false, s)
  | [] => (false, [])
  end.

(** [int(s)] on a token: an optional sign and at least one digit. *)
Definition py_int (s : str) : option Z :=
  let '(neg, body) := split_sign s in
  match body with
  | [] => None
  | _ => n ← parse_digits 0 body; Some (if neg then - n else n)
  end.

(** ** Python floats *)

(** Rounding to the nearest integer, ties to even. *)
Definition round_half_even (q : Q) : Z :=
  let n := Qnum q in
  let d := Z.pos (Qden q) in
  let f := n / d in
  let r2 := 2 * (n mod d) in
  if r2 <? d then f
  else if d <? r2 then f + 1
  else if Z.even f then f else f + 1.

(** The exponent of the leading bit of a positive rational:
    [2 ^ ilog2 q <= q < 2 ^ (ilog2 q + 1)]. *)
Definition ilog2 (q : Q) : Z :=
  let e := Z.log2 (Qnum q) - Z.log2 (Z.pos (Qden q)) in
  if Qle_bool (2 ^ e) q then e else e - 1.

(** The distance between neighbouring binary64 numbers whose leading bit
    has exponent [e]: 53 significant bits, and the spacing of exponent
    -1022 below it (the subnormal numbers). *)
Definition ulp (e : Z) : Q := (2 ^ (Z.max e (-1022) - 52))%Q.

(** The binary64 number nearest to [q], ties to the even significand; the
    result is in lowest terms.  Above the largest finite binary64 number
    Python has [inf] or an [OverflowError], which are not modelled. *)
Definition binary64 (q : Q) : Q :=
  if Qeq_bool q 0 then 0%Q
  else let u := ulp (ilog2 (Qabs q)) in
       Qred (inject_Z (round_half_even (q / u)) * u).

(** [a + b], [a - b], [a * b] and [a / b] when one operand is a [float];
    [a / b] is also the true division of two [int]s.  The tool never
    divides by zero (the zoom level stays above one tenth and images have
    positive sizes), where Python would raise [ZeroDivisionError] and
    [a / 0] is 0 here. *)
Definition fadd (a b : Q) : Q := binary64 (a + b).
Definition fsub (a b : Q) : Q := binary64 (a - b).
Definition fmul (a b : Q) : Q := binary64 (a * b).
Definition fdiv (a b : Q) : Q := binary64 (a / b).

(** [float(n)] for an [int], as the arithmetic does it to an [int]
    operand. *)
Definition float_of_int (n : Z) : Q := binary64 (inject_Z n).

(** The integer nearest to the square root of [t >= 0], ties to even. *)
Definition nearest_root (t : Q) : Z :=
  let k := Z.sqrt (Qfloor t) in
  let h := (inject_Z k + (1 # 2))%Q in
  match (t ?= h * h)%Q with
  | Lt => k
  | Gt => k + 1
  | Eq => if Z.even k then k else k + 1
  end.

(** The square root of [s >= 0], rounded to binary64. *)
Definition fsqrt (s : Q) : Q :=
  if Qle_bool s 0 then 0%Q
  else let u := ulp (ilog2 s / 2) in
       Qred (inject_Z (nearest_root (s / (u * u))) * u).

(** [np.hypot(x, y)], which calls the C library's [hypot]: the square
    root of the exact sum of the squares, rounded once (the library
    function is taken to round correctly). *)
Definition hypot (x y : Q) : Q := fsqrt (x * x + y * y).

(** The text before the first dot, and the text after it when there is
    one. *)
Fixpoint break_dot (s : str) : str * option str :=
  match s with
  | [] => ([], None)
  | c :: s' =>
      if Ascii.eqb c "." then ([], Some s')
      else let '(a, b) := break_dot s' in (c :: a, b)
  end.

(** [float(s)] on a token, for plain decimal literals: an optional sign,
    digits, and optionally a dot and digits, with a digit on at least one
    side; the result is the binary64 number nearest to the decimal.  Every
    other token is the [ValueError] case; the exponent, [inf] and [nan]
    spellings that Python also accepts are never written by the tool and
    are not modelled. *)
Definition py_float (s : str) : option Q :=
  let '(neg, body) := split_sign s in
  let '(ip, fp) := break_dot body in
  let frac := default [] fp in
  match ip ++ frac with
  | [] => None
  | _ =>
      i ← parse_digits 0 ip;
      f ← parse_digits 0 frac;
      let scale := 10 ^ Z.of_nat (length frac) in
      let v := Qmake (i * scale + f) (Z.to_pos scale) in
      Some (binary64 (if neg then Qopp v else v))
  end.

(** [k] decimal digits of [n], most significant first, padded with
    zeros. *)
Fixpoint pad_digits (k : nat) (n : Z) : str :=
  match k with
  | O => []
  | S k' => pad_digits k' (n / 10) ++ [digit_char (n mod 10)]
  end.

Fixpoint drop_leading_zeros (s : str) : str :=
  match s with
  | c :: r =>
      match r with
      | [] => s
      | _ => if Ascii.eqb c "0" then drop_leading_zeros r else s
      end
  | [] => []
  end.

(** The decimal numeral of a natural number: it has at most as many
    decimal digits as binary ones. *)
Definition nat_digits (n : Z) : str :=
  drop_leading_zeros (pad_digits (S (Z.to_nat (Z.log2 n))) n).

(** [f"{n}"] for an [int]. *)
Definition format_int (n : Z) : str :=
  if n <? 0 then "-"%char :: nat_digits (- n) else nat_digits n.

(** [f"{q:.6f}"]: the sign, the integer part, a dot and six digits of the
    magnitude rounded to a whole number of millionths, ties to even (on
    the exact value of the [float]). *)
Definition format_6f (q : Q) : str :=
  let m := round_half_even (Qabs q * inject_Z 1000000) in
  (if Qle_bool 0 q then [] else ["-"%char])
    ++ nat_digits (m / 1000000) ++ ["."%char] ++ pad_digits 6 (m mod 1000000).

(** [int(q)] for a [float]: truncation toward zero. *)
Definition py_trunc (q : Q) : Z := Z.quot (Qnum q) (Z.pos (Qden q)).

(** [min(l)] and [max(l)] for a list that starts with [x]; among equal
    values the first one is returned. *)
Definition min_from (x : Q) (r : list Q) : Q :=
  fold_left (fun m y => if Qle_bool m y then m else y) r x.

Definition max_from (x : Q) (r : list Q) : Q :=
  fold_left (fun m y => if Qle_bool y m then m else y) r x.

(** [min(s)] for a set of integers; [None] is the [ValueError] on an
    empty set. *)
Definition py_min_set (s : gset Z) : option Z :=
  match elements s with
  | [] => None
  | x :: r => Some (fold_left Z.min r x)
  end.

(** Dictionaries in insertion order. *)
Definition dict (V : Type) := list (string * V).

(** [d[k]]; [None] is the [KeyError]. *)
Fixpoint dict_lookup {V} (k : string) (d : dict V) : option V :=
  match d with
  | [] => None
  | (k', v) :: d' => if String.eqb k k' then Some v else dict_lookup k d'
  end.

(** [d[k] = v]: an existing key keeps its place, a new one goes last. *)
Fixpoint dict_set {V} (k : string) (v : V) (d : dict V) : dict V :=
  match d with
  | [] => [(k, v)]
  | (k', v') :: d' =>
      if String.eqb k k' then (k', v) :: d' else (k', v') :: dict_set k v d'
  end.

(** [l.remove(x)]: the first occurrence goes; [None] is the [ValueError]
    when there is none. *)
Fixpoint list_remove (x : nat) (l : list nat) : option (list nat) :=
  match l with
  | [] => None
  | y :: l' => if Nat.eqb x y then Some l' else cons y <$> list_remove x l'
  end.

Definition lit (s : string) : str := list_ascii_of_string s.

(** ** Skeletons and the two fixed part lists *)

Inductive SkeletonType := LMG | Rifle.

(** A key-point position [(x, y)] in image pixels. *)
Definition Coords : Type := Q * Q.

(** [class Skeleton]: [annotations] maps a part name to its position or
    to [None].  The per-skeleton [annotation_history], [redo_stack] and
    [selected_keypoint] fields of the class are never used by the tool and
    are left out. *)
Record Skeleton := mkSkeleton {
  skeleton_id : Z;
  annotations : dict (option Coords);
  skeleton_type : SkeletonType
}.

Definition lmg_parts : list string :=
  ["butt"; "pistol grip"; "trigger"; "cover"; "rear sight";
   "barrel jacket"; "left bipod"; "right bipod"]%string.

Definition rifle_parts : list string :=
  ["butt"; "rear sight"; "pistol grip"; "trigger"; "front handguard";
   "barrel"]%string.

Definition skeleton_parts (ty : SkeletonType) : list string :=
  match ty with LMG => lmg_parts | Rifle => rifle_parts end.

Definition class_index (ty : SkeletonType) : Z :=
  match ty with LMG => 0 | Rifle => 1 end.

(** [annotations.get(part)] as the tool reads it: a missing key and a key
    bound to [None] are both "no position". *)
Definition get_coords (part : string) (ann : dict (option Coords))
  : option Coords :=
  mjoin (dict_lookup part ann).

(** ** The pose-format codec *)

Section Codec.
(** [image_width] and [image_height] *)
Variables (image_width image_height : Z).

(** One round of [for part in skeleton_parts] in [save_yolo_format]; the
    state is [(keypoints, xs, ys)]. *)
Definition save_keypoint (ann : dict (option Coords))
    (acc : list str * list Q * list Q) (part : string)
  : list str * list Q * list Q :=
  let '(keypoints, xs, ys) := acc in
  match get_coords part ann with
  | Some (x, y) =>
      let normalized_x := fdiv x (inject_Z image_width) in
      let normalized_y := fdiv y (inject_Z image_height) in
      (keypoints ++ [format_6f normalized_x; format_6f normalized_y],
       xs ++ [normalized_x], ys ++ [normalized_y])
  | None => (keypoints ++ [lit "-1"; lit "-1"], xs, ys)
  end.

(** The body of [for skeleton in skeletons]: the line of one skeleton,
    or [None] when [xs] or [ys] is empty and nothing is appended. *)
Definition yolo_format_line (skeleton : Skeleton) : option str :=
  let ty := skeleton_type skeleton in
  let '(keypoints, xs, ys) :=
    fold_left (save_keypoint (annotations skeleton)) (skeleton_parts ty)
              ([], [], []) in
  match xs, ys with
  | x0 :: xr, y0 :: yr =>
      let min_x := min_from x0 xr in
      let max_x := max_from x0 xr in
      let min_y := min_from y0 yr in
      let max_y := max_from y0 yr in
      let bbox_center_x := fdiv (fadd min_x max_x) 2 in
      let bbox_center_y := fdiv (fadd min_y max_y) 2 in
      let bbox_width := fsub max_x min_x in
      let bbox_height := fsub max_y min_y in
      Some (format_int (class_index ty) ++ lit " "
            ++ format_6f bbox_center_x ++ lit " "
            ++ format_6f bbox_center_y ++ lit " "
            ++ format_6f bbox_width ++ lit " "
            ++ format_6f bbox_height ++ lit " "
            ++ join (lit " ") keypoints)
  | _, _ => None
  end.

(** [yolo_data] at the end of the loop over the skeletons. *)
Definition yolo_data (skeletons : list Skeleton) : list str :=
  fold_left
    (fun data skeleton =>
       match yolo_format_line skeleton with
       | Some line => data ++ [line]
       | None => data
       end)
    skeletons [].

(** One round of [for i in range(num_keypoints)] in
    [load_annotations]. *)
Definition load_keypoint (parts : list string) (keypoints : list str)
    (acc : option (dict (option Coords))) (i : nat)
  : option (dict (option Coords)) :=
  ann ← acc;
  let idx := (i * 2)%nat in
  if (idx + 1 <? length keypoints)%nat then
    x_str ← keypoints !! idx;
    y_str ← keypoints !! (idx + 1)%nat;
    x ← py_float x_str;
    y ← py_float y_str;
    part ← parts !! i;
    if Qle_bool 0 x && Qle_bool 0 y
    then Some (dict_set part
                 (Some (fmul x (inject_Z image_width),
                        fmul y (inject_Z image_height))) ann)
    else Some (dict_set part None ann)
  else Some ann.

(** The body of [for line in lines]: [Some None] is [continue] on a line
    with fewer than five fields, [None] a [ValueError] from [int] or
    [float], and otherwise the type and annotations of the skeleton to
    build. *)
Definition parse_line (line : str)
  : option (option (SkeletonType * dict (option Coords))) :=
  let parts := split (strip line) in
  if (length parts <? 5)%nat then Some None
  else
    class_index ← parts !! 0%nat ≫= py_int;
    _ ← parts !! 1%nat ≫= py_float;
    _ ← parts !! 2%nat ≫= py_float;
    _ ← parts !! 3%nat ≫= py_float;
    _ ← parts !! 4%nat ≫= py_float;
    let keypoints := drop 5 parts in
    let ty := if class_index =? 0 then LMG else Rifle in
    let num_keypoints := length (skeleton_parts ty) in
    ann ← fold_left (load_keypoint (skeleton_parts ty) keypoints)
                     (seq 0 num_keypoints) (Some []);
    Some (Some (ty, ann)).
End Codec.

(** ** The state of the tool *)

(** An undo/redo record.  The Python tuples hold references to [Skeleton]
    objects, here indices into the object table; [reset] holds the shallow
    copy of the skeleton list. *)
Inductive Action :=
| add_skeleton (skeleton : nat)
| move_keypoint (skeleton : nat) (part : string)
    (old_coords : option Coords) (new_coords : Coords)
| delete_keypoint (skeleton : nat) (part : string) (coords : option Coords)
| reset (skeletons : list nat).

(** The fields of [ImageLabel] that the mouse handlers use.  Its copies of
    the zoom level, the offsets and the image are set from the main window
    on every change ([display_image], [load_image]) and are read there. *)
Record ImageLabel := mkImageLabel {
  label_selected_skeleton : option nat;
  label_selected_keypoint : option string;
  dragging_keypoint : bool
}.

(** [KeypointAnnotationTool]: [image] is [image.shape] as
    [(height, width)], [files] the annotation files on disk by path, and
    the two logs keep their newest record first (the end of the Python
    list, where [append] and [pop] work). *)
Record Tool := mkTool {
  heap : list Skeleton;
  files : gmap string str;
  image : option (Z * Z);
  image_file_path : string;
  zoom_level : Q;
  offset_x : Z;
  offset_y : Z;
  save_folder : option string;
  auto_save : bool;
  skeletons : list nat;
  deleted_skeleton_ids : gset Z;
  annotation_history : list Action;
  redo_stack : list Action;
  selected_skeleton : option nat;
  selected_keypoint : option string;
  image_label : ImageLabel;
  current_skeleton_type : SkeletonType
}.

Definition set_heap (v : list Skeleton) (t : Tool) : Tool :=
  mkTool v (files t) (image t) (image_file_path t) (zoom_level t)
    (offset_x t) (offset_y t) (save_folder t) (auto_save t) (skeletons t)
    (deleted_skeleton_ids t) (annotation_history t) (redo_stack t)
    (selected_skeleton t) (selected_keypoint t) (image_label t)
    (current_skeleton_type t).

Definition set_files (v : gmap string str) (t : Tool) : Tool :=
  mkTool (heap t) v (image t) (image_file_path t) (zoom_level t)
    (offset_x t) (offset_y t) (save_folder t) (auto_save t) (skeletons t)
    (deleted_skeleton_ids t) (annotation_history t) (redo_stack t)
    (selected_skeleton t) (selected_keypoint t) (image_label t)
    (current_skeleton_type t).

Definition set_view (z : Q) (ox oy : Z) (t : Tool) : Tool :=
  mkTool (heap t) (files t) (image t) (image_file_path t) z ox oy
    (save_folder t) (auto_save t) (skeletons t)
    (deleted_skeleton_ids t) (annotation_history t) (redo_stack t)
    (selected_skeleton t) (selected_keypoint t) (image_label t)
    (current_skeleton_type t).

Definition set_skeletons (v : list nat) (t : Tool) : Tool :=
  mkTool (heap t) (files t) (image t) (image_file_path t) (zoom_level t)
    (offset_x t) (offset_y t) (save_folder t) (auto_save t) v
    (deleted_skeleton_ids t) (annotation_history t) (redo_stack t)
    (selected_skeleton t) (selected_keypoint t) (image_label t)
    (current_skeleton_type t).

Definition set_deleted_skeleton_ids (v : gset Z) (t : Tool) : Tool :=
  mkTool (heap t) (files t) (image t) (image_file_path t) (zoom_level t)
    (offset_x t) (offset_y t) (save_folder t) (auto_save t) (skeletons t)
    v (annotation_history t) (redo_stack t)
    (selected_skeleton t) (selected_keypoint t) (image_label t)
    (current_skeleton_type t).

(** The two logs are always updated together. *)
Definition set_logs (h r : list Action) (t : Tool) : Tool :=
  mkTool (heap t) (files t) (image t) (image_file_path t) (zoom_level t)
    (offset_x t) (offset_y t) (save_folder t) (auto_save t) (skeletons t)
    (deleted_skeleton_ids t) h r
    (selected_skeleton t) (selected_keypoint t) (image_label t)
    (current_skeleton_type t).

Definition set_selected_skeleton (v : option nat) (t : Tool) : Tool :=
  mkTool (heap t) (files t) (image t) (image_file_path t) (zoom_level t)
    (offset_x t) (offset_y t) (save_folder t) (auto_save t) (skeletons t)
    (deleted_skeleton_ids t) (annotation_history t) (redo_stack t)
    v (selected_keypoint t) (image_label t)
    (current_skeleton_type t).

Definition set_selected_keypoint (v : option string) (t : Tool) : Tool :=
  mkTool (heap t) (files t) (image t) (image_file_path t) (zoom_level t)
    (offset_x t) (offset_y t) (save_folder t) (auto_save t) (skeletons t)
    (deleted_skeleton_ids t) (annotation_history t) (redo_stack t)
    (selected_skeleton t) v (image_label t)
    (current_skeleton_type t).

Definition set_image_label (v : ImageLabel) (t : Tool) : Tool :=
  mkTool (heap t) (files t) (image t) (image_file_path t) (zoom_level t)
    (offset_x t) (offset_y t) (save_folder t) (auto_save t) (skeletons t)
    (deleted_skeleton_ids t) (annotation_history t) (redo_stack t)
    (selected_skeleton t) (selected_keypoint t) v
    (current_skeleton_type t).

Definition set_current_skeleton_type (v : SkeletonType) (t : Tool) : Tool :=
  mkTool (heap t) (files t) (image t) (image_file_path t) (zoom_level t)
    (offset_x t) (offset_y t) (save_folder t) (auto_save t) (skeletons t)
    (deleted_skeleton_ids t) (annotation_history t) (redo_stack t)
    (selected_skeleton t) (selected_keypoint t) (image_label t) v.

(** The state after [__init__]. *)
Definition init_tool (disk : gmap string str) : Tool :=
  mkTool [] disk None EmptyString 1%Q 0 0 None false [] ∅ [] [] None None
    (mkImageLabel None None false) LMG.

(** Following a reference; [None] stands for a dangling index, which no
    Python state has. *)
Definition deref (t : Tool) (skeleton : nat) : option Skeleton :=
  heap t !! skeleton.

(** [skeleton.annotations[part] = v] on the object table. *)
Definition set_annotation (skeleton : nat) (part : string)
    (v : option Coords) (t : Tool) : option Tool :=
  sk ← deref t skeleton;
  Some (set_heap
          (<[skeleton :=
               mkSkeleton (skeleton_id sk)
                 (dict_set part v (annotations sk)) (skeleton_type sk)]>
             (heap t)) t).

(** The [Skeleton] values of [self.skeletons], in list order. *)
Definition live_skeletons (t : Tool) : option (list Skeleton) :=
  mapM (deref t) (skeletons t).

(** ** Operations of the tool *)

(** [get_next_skeleton_id] *)
Definition get_next_skeleton_id (t : Tool) : option Z :=
  sks ← live_skeletons t;
  let existing_ids : gset Z := list_to_set (skeleton_id <$> sks) in
  let all_ids : gset Z :=
    list_to_set
      (seqZ 1 (Z.of_nat (length (skeletons t))
               + Z.of_nat (size (deleted_skeleton_ids t)) + 1)) in
  let available_ids := all_ids ∖ existing_ids in
  py_min_set available_ids.

Definition at_ (x y : Z) : option Coords := Some (inject_Z x, inject_Z y).

(** The two [default_positions] tables of [add_new_skeleton]. *)
Definition default_positions (ty : SkeletonType) (center_x center_y : Z)
  : dict (option Coords) :=
  match ty with
  | LMG =>
      [("butt", at_ (center_x - 100) center_y);
       ("pistol grip", at_ (center_x - 50) (center_y + 50));
       ("trigger", at_ center_x (center_y + 20));
       ("cover", at_ center_x center_y);
       ("rear sight", at_ (center_x + 50) (center_y - 30));
       ("barrel jacket", at_ (center_x + 100) center_y);
       ("left bipod", at_ (center_x + 150) (center_y + 50));
       ("right bipod", at_ (center_x + 150) (center_y - 50))]%string
  | Rifle =>
      [("butt", at_ (center_x - 100) center_y);
       ("rear sight", at_ (center_x - 50) (center_y - 30));
       ("pistol grip", at_ (center_x - 10) (center_y + 50));
       ("trigger", at_ center_x (center_y + 20));
       ("front handguard", at_ (center_x + 50) center_y);
       ("barrel", at_ (center_x + 100) center_y)]%string
  end.

(** [add_new_skeleton]: the new object gets the next free index of the
    object table. *)
Definition add_new_skeleton (t : Tool) : option Tool :=
  match image t with
  | Some (height, width) =>
      new_id ← get_next_skeleton_id t;
      let center_x := width / 2 in
      let center_y := height / 2 in
      let ty := current_skeleton_type t in
      let skeleton := length (heap t) in
      let obj := mkSkeleton new_id (default_positions ty center_x center_y) ty in
      Some (set_logs (add_skeleton skeleton :: annotation_history t) []
              (set_selected_skeleton (Some skeleton)
                 (set_skeletons (skeletons t ++ [skeleton])
                    (set_heap (heap t ++ [obj]) t))))
  | None => Some t
  end.

(** [set_skeleton_type] *)
Definition set_skeleton_type (ty : SkeletonType) (t : Tool) : option Tool :=
  match image t with
  | None => Some t
  | Some _ => add_new_skeleton (set_current_skeleton_type ty t)
  end.

(** View space to image space: [(event.x() - offset_x) / zoom_level], an
    [int] divided by a [float]. *)
Definition to_image_space (t : Tool) (ex ey : Z) : Q * Q :=
  (fdiv (float_of_int (ex - offset_x t)) (zoom_level t),
   fdiv (float_of_int (ey - offset_y t)) (zoom_level t)).

(** [np.hypot(x_click - x_anno, y_click - y_anno) <= 10] *)
Definition within_tolerance (x_click y_click : Q) (coords : Coords) : bool :=
  let '(x_anno, y_anno) := coords in
  let distance := hypot (fsub x_click x_anno) (fsub y_click y_anno) in
  Qle_bool distance 10.

(** The inner loop of [mousePressEvent] over [annotations.items()]. *)
Fixpoint hit_keypoint (x_click y_click : Q) (items : dict (option Coords))
  : option string :=
  match items with
  | [] => None
  | (part, coords) :: rest =>
      match coords with
      | Some c =>
          if within_tolerance x_click y_click c then Some part
          else hit_keypoint x_click y_click rest
      | None => hit_keypoint x_click y_click rest
      end
  end.

(** The outer loop over [self.main_window.skeletons]; it stops at the
    first skeleton with a hit. *)
Fixpoint hit_test (t : Tool) (x_click y_click : Q) (sks : list nat)
  : option (option (nat * string)) :=
  match sks with
  | [] => Some None
  | skeleton :: rest =>
      sk ← deref t skeleton;
      match hit_keypoint x_click y_click (annotations sk) with
      | Some part => Some (Some (skeleton, part))
      | None => hit_test t x_click y_click rest
      end
  end.

(** [ImageLabel.mousePressEvent]; the [keypoint_selected] signal runs
    [KeypointAnnotationTool.keypoint_selected]. *)
Definition mousePressEvent (ex ey : Z) (t : Tool) : option Tool :=
  match image t with
  | None => Some t
  | Some _ =>
      let '(x_click, y_click) := to_image_space t ex ey in
      hit ← hit_test t x_click y_click (skeletons t);
      match hit with
      | Some (skeleton, part) =>
          Some (set_selected_keypoint (Some part)
                  (set_selected_skeleton (Some skeleton)
                     (set_image_label
                        (mkImageLabel (Some skeleton) (Some part) true) t)))
      | None => Some t
      end
  end.

(** [ImageLabel.mouseMoveEvent].  Part names are never empty, so a
    selected key point is always truthy. *)
Definition mouseMoveEvent (ex ey : Z) (t : Tool) : option Tool :=
  match dragging_keypoint (image_label t),
        label_selected_keypoint (image_label t),
        label_selected_skeleton (image_label t) with
  | true, Some part, Some skeleton =>
      let '(x_move, y_move) := to_image_space t ex ey in
      '(height, width) ← image t;
      let x_move := Z.max 0 (Z.min (py_trunc x_move) (width - 1)) in
      let y_move := Z.max 0 (Z.min (py_trunc y_move) (height - 1)) in
      sk ← deref t skeleton;
      old_coords ← dict_lookup part (annotations sk);
      let new_coords := (inject_Z x_move, inject_Z y_move) in
      t' ← set_annotation skeleton part (Some new_coords) t;
      Some (set_logs
              (move_keypoint skeleton part old_coords new_coords
                 :: annotation_history t) [] t')
  | _, _, _ => Some t
  end.

(** [ImageLabel.mouseReleaseEvent] *)
Definition mouseReleaseEvent (t : Tool) : Tool :=
  set_image_label
    (mkImageLabel (label_selected_skeleton (image_label t))
       (label_selected_keypoint (image_label t)) false) t.

(** The [Qt.Key_Delete] branch of [keyPressEvent]. *)
Definition delete_key (t : Tool) : option Tool :=
  match selected_skeleton t, selected_keypoint t with
  | Some skeleton, Some part =>
      sk ← deref t skeleton;
      coords ← dict_lookup part (annotations sk);
      t' ← set_annotation skeleton part None t;
      Some (set_selected_keypoint None
              (set_logs
                 (delete_keypoint skeleton part coords
                    :: annotation_history t) [] t'))
  | _, _ => Some t
  end.

(** [wheelEvent]: [up] is [event.angleDelta().y() > 0], and [tenth] the
    literal [0.1]. *)
Definition wheelEvent (up : bool) (t : Tool) : Tool :=
  let tenth := binary64 (1 # 10) in
  let z := if up then fadd (zoom_level t) tenth
           else max_from tenth [fsub (zoom_level t) tenth] in
  set_view z (offset_x t) (offset_y t) t.

(** The main window's [mouseMoveEvent] while dragging the view by
    [delta]. *)
Definition pan (dx dy : Z) (t : Tool) : Tool :=
  set_view (zoom_level t) (offset_x t + dx) (offset_y t + dy) t.

(** [toggle_auto_save] *)
Definition toggle_auto_save (checked : bool) (t : Tool) : Tool :=
  mkTool (heap t) (files t) (image t) (image_file_path t) (zoom_level t)
    (offset_x t) (offset_y t) (save_folder t) checked (skeletons t)
    (deleted_skeleton_ids t) (annotation_history t) (redo_stack t)
    (selected_skeleton t) (selected_keypoint t) (image_label t)
    (current_skeleton_type t).

(** [select_save_folder]: the chooser returns the empty string when it is
    cancelled. *)
Definition select_save_folder (folder : string) (t : Tool) : Tool :=
  mkTool (heap t) (files t) (image t) (image_file_path t) (zoom_level t)
    (offset_x t) (offset_y t) (Some folder) (auto_save t) (skeletons t)
    (deleted_skeleton_ids t) (annotation_history t) (redo_stack t)
    (selected_skeleton t) (selected_keypoint t) (image_label t)
    (current_skeleton_type t).

(** Truth value of [self.save_folder]: [None] and the empty string are
    false. *)
Definition folder_selected (t : Tool) : option string :=
  match save_folder t with
  | Some EmptyString => None
  | f => f
  end.

(** [undo_action] *)
Definition undo_action (t : Tool) : option Tool :=
  match image t with
  | None => Some t
  | Some _ =>
      match annotation_history t with
      | action :: history =>
          let t := set_logs history (action :: redo_stack t) t in
          match action with
          | add_skeleton skeleton =>
              sk ← deref t skeleton;
              rest ← list_remove skeleton (skeletons t);
              Some (set_deleted_skeleton_ids
                      (deleted_skeleton_ids t ∪ {[skeleton_id sk]})
                      (set_skeletons rest t))
          | move_keypoint skeleton part old_coords new_coords =>
              set_annotation skeleton part old_coords t
          | delete_keypoint skeleton part coords =>
              set_annotation skeleton part coords t
          | reset sks =>
              Some (set_deleted_skeleton_ids ∅ (set_skeletons sks t))
          end
      | [] => Some t
      end
  end.

(** [redo_action] *)
Definition redo_action (t : Tool) : option Tool :=
  match image t with
  | None => Some t
  | Some _ =>
      match redo_stack t with
      | action :: redo =>
          let t := set_logs (action :: annotation_history t) redo t in
          match action with
          | add_skeleton skeleton =>
              sk ← deref t skeleton;
              Some (set_deleted_skeleton_ids
                      (deleted_skeleton_ids t ∖ {[skeleton_id sk]})
                      (set_skeletons (skeletons t ++ [skeleton]) t))
          | move_keypoint skeleton part old_coords new_coords =>
              set_annotation skeleton part (Some new_coords) t
          | delete_keypoint skeleton part coords =>
              set_annotation skeleton part None t
          | reset sks =>
              Some (set_deleted_skeleton_ids ∅ (set_skeletons [] t))
          end
      | [] => Some t
      end
  end.

(** ** Annotation files, images and the event loop *)

Section Files.
(** [os.path.join(save_folder, f"{base_name}.txt")] where [base_name] is
    the image's file name without directory and extension; the path
    arithmetic of [os.path] is left abstract. *)
Variable label_file_path : string -> string -> string.

(** [reset_annotations] *)
Definition reset_annotations (t : Tool) : Tool :=
  match image t with
  | None => t
  | Some _ =>
      let t1 :=
        set_selected_keypoint None
          (set_selected_skeleton None
             (set_deleted_skeleton_ids ∅
                (set_skeletons []
                   (set_logs (reset (skeletons t) :: annotation_history t)
                      [] t)))) in
      match auto_save t, folder_selected t with
      | true, Some folder =>
          set_files
            (delete (label_file_path folder (image_file_path t)) (files t))
            t1
      | _, _ => t1
      end
  end.

(** [save_yolo_format], as a function of the disk. *)
Definition save_yolo_format (folder image_name : string)
    (sks : list Skeleton) (image_width image_height : Z)
    (disk : gmap string str) : gmap string str :=
  let path := label_file_path folder image_name in
  match yolo_data image_width image_height sks with
  | [] => delete path disk
  | data => <[path := join [newline] data]> disk
  end.

(** [save_annotations] *)
Definition save_annotations (t : Tool) : option Tool :=
  match folder_selected t with
  | None => Some t
  | Some folder =>
      match image t with
      | Some (height, width) =>
          match skeletons t with
          | [] =>
              Some (set_files
                      (delete (label_file_path folder (image_file_path t))
                         (files t)) t)
          | _ =>
              sks ← live_skeletons t;
              Some (set_files
                      (save_yolo_format folder (image_file_path t) sks
                         width height (files t)) t)
          end
      | None => Some t
      end
  end.

(** One round of [for line in lines] in [load_annotations]. *)
Definition load_line (image_width image_height : Z)
    (acc : option Tool) (line : str) : option Tool :=
  t ← acc;
  parsed ← parse_line image_width image_height line;
  match parsed with
  | None => Some t
  | Some (ty, ann) =>
      new_id ← get_next_skeleton_id t;
      let skeleton := length (heap t) in
      Some (set_skeletons (skeletons t ++ [skeleton])
              (set_heap (heap t ++ [mkSkeleton new_id ann ty]) t))
  end.

(** [load_annotations] *)
Definition load_annotations (t : Tool) : option Tool :=
  match folder_selected t with
  | None => Some t
  | Some folder =>
      match files t !! label_file_path folder (image_file_path t) with
      | Some text =>
          '(height, width) ← image t;
          fold_left (load_line width height) (readlines text)
            (Some (set_skeletons [] t))
      | None => Some t
      end
  end.

(** [load_image] for the image at [path], read with shape
    [(height, width)]. *)
Definition load_image (path : string) (shape : Z * Z) (t : Tool)
  : option Tool :=
  load_annotations
    (mkTool (heap t) (files t) (Some shape) path 1%Q 0 0 (save_folder t)
       (auto_save t) [] ∅ [] [] (selected_skeleton t) (selected_keypoint t)
       (image_label t) (current_skeleton_type t)).

(** [load_next_image] and [load_previous_image], which differ only in
    the image they move to. *)
Definition load_other_image (path : string) (shape : Z * Z) (t : Tool)
  : option Tool :=
  match image t with
  | None => Some t
  | Some _ =>
      t' ← (if auto_save t then save_annotations t else Some t);
      load_image path shape t'
  end.

(** What the user can do. *)
Inductive Event :=
| SelectImageFolder (path : string) (shape : Z * Z)
| OtherImage (path : string) (shape : Z * Z)
| SelectSaveFolder (folder : string)
| ToggleAutoSave (checked : bool)
| SetSkeletonType (ty : SkeletonType)
| MousePress (ex ey : Z)
| MouseMove (ex ey : Z)
| MouseRelease
| Wheel (up : bool)
| Pan (dx dy : Z)
| KeyDelete
| Reset
| Undo
| Redo
| Save.

Definition step (e : Event) (t : Tool) : option Tool :=
  match e with
  | SelectImageFolder path shape => load_image path shape t
  | OtherImage path shape => load_other_image path shape t
  | SelectSaveFolder folder => Some (select_save_folder folder t)
  | ToggleAutoSave checked => Some (toggle_auto_save checked t)
  | SetSkeletonType ty => set_skeleton_type ty t
  | MousePress ex ey => mousePressEvent ex ey t
  | MouseMove ex ey => mouseMoveEvent ex ey t
  | MouseRelease => Some (mouseReleaseEvent t)
  | Wheel up => Some (wheelEvent up t)
  | Pan dx dy => Some (pan dx dy t)
  | KeyDelete => delete_key t
  | Reset => Some (reset_annotations t)
  | Undo => undo_action t
  | Redo => redo_action t
  | Save => save_annotations t
  end.

(** Running a sequence of events; [None] when one of them raises. *)
Fixpoint run (es : list Event) (t : Tool) : option Tool :=
  match es with
  | [] => Some t
  | e :: es' => t' ← step e t; run es' t'
  end.

(** Images have at least one row and one column. *)
Definition event_ok (e : Event) : Prop :=
  match e with
  | SelectImageFolder _ (height, width)
  | OtherImage _ (height, width) => 0 < height ∧ 0 < width
  | _ => True
  end.

(** The states the tool can be in. *)
Inductive Reachable : Tool -> Prop :=
| Reachable_init disk : Reachable (init_tool disk)
| Reachable_step e t t' :
    Reachable t -> event_ok e -> step e t = Some t' -> Reachable t'.
End Files.

(** [undo_action] until the undo log is empty, and [redo_action] until
    the redo log is empty: one call per record. *)
Fixpoint repeat_action (f : Tool -> option Tool) (n : nat) (t : Tool)
  : option Tool :=
  match n with
  | O => Some t
  | S n' => t' ← f t; repeat_action f n' t'
  end.

Definition undo_all (t : Tool) : option Tool :=
  repeat_action undo_action (length (annotation_history t)) t.

Definition redo_all (t : Tool) : option Tool :=
  repeat_action redo_action (length (redo_stack t)) t.

(** ** The frame extraction dialog *)



(** ** Moving between the images of a folder *)



(** ** Specification predicates and example states *)

(** What [get_next_skeleton_id] computes. *)
Definition smallest_unused (ids : list Z) (m : Z) : Prop :=
  1 ≤ m ∧ (m ∉ ids) ∧ (∀ k, 1 ≤ k < m → k ∈ ids).

Definition action_refs (a : Action) : list nat :=
  match a with
  | add_skeleton r | move_keypoint r _ _ _ | delete_keypoint r _ _ => [r]
  | reset sks => sks
  end.

(** Every reference held by the tool is below [n]. *)
Record bounded (n : nat) (t : Tool) : Prop := mkBounded {
  bounded_skeletons : Forall (λ r, r < n)%nat (skeletons t);
  bounded_history :
    Forall (λ a, Forall (λ r, r < n)%nat (action_refs a))
      (annotation_history t);
  bounded_redo :
    Forall (λ a, Forall (λ r, r < n)%nat (action_refs a)) (redo_stack t);
  bounded_selected : ∀ r, selected_skeleton t = Some r → (r < n)%nat;
  bounded_label :
    ∀ r, label_selected_skeleton (image_label t) = Some r → (r < n)%nat
}.

(** No reference dangles. *)
Definition refs_ok (t : Tool) : Prop := bounded (length (heap t)) t.

(** A state in which skeletons 1, 2 and 3 are live and the newest record
    of the undo log is the addition of skeleton 2. *)
Definition three_skeletons : Tool :=
  mkTool
    [mkSkeleton 1 (default_positions LMG 320 240) LMG;
     mkSkeleton 2 (default_positions Rifle 320 240) Rifle;
     mkSkeleton 3 (default_positions LMG 320 240) LMG]
    ∅ (Some (480, 640)) "a.png" 1%Q 0 0 None false [0; 1; 2]%nat ∅
    [add_skeleton 1] [] None None (mkImageLabel None None false) LMG.

(** A state with a 640 by 480 image, no zoom and no pan, in which the
    cover of an LMG skeleton is being dragged. *)
Definition dragging_cover : Tool :=
  mkTool [mkSkeleton 1 (default_positions LMG 320 240) LMG] ∅
    (Some (480, 640)) "a.png" 1%Q 0 0 None false [0%nat] ∅
    [add_skeleton 0] [] (Some 0%nat) (Some "cover"%string)
    (mkImageLabel (Some 0%nat) (Some "cover"%string) true) LMG.

(** A state whose set of deleted ids is not empty: skeleton 1 was added
    and the addition undone. *)
Definition one_deleted : Tool :=
  mkTool [mkSkeleton 1 (default_positions LMG 320 240) LMG] ∅
    (Some (480, 640)) "a.png" 1%Q 0 0 None false [] {[1]}
    [] [add_skeleton 0] (Some 0%nat) None (mkImageLabel None None false) LMG.

(** The largest exact distance that [np.hypot] rounds to at most 10: half
    a unit in the last place above 10, which is [10 + 2 ^ -50]. *)
Definition hit_radius : Q := 11258999068426241 # 1125899906842624.

(** The key points of the live skeletons in skeleton-then-part order. *)
Definition candidates (refs : list nat) (sks : list Skeleton)
  : list (nat * string * option Coords) :=
  zip refs sks ≫= λ '(r, sk), (λ '(part, c), (r, part, c)) <$> annotations sk.

(** A present key point within 10 pixels of the click, as the tool
    measures the distance. *)
Definition is_hit (x y : Q) (cand : nat * string * option Coords) : bool :=
  match cand.2 with
  | Some c => within_tolerance x y c
  | None => false
  end.

(** [cand] is the first hit of [cands]. *)
Definition first_hit (x y : Q) (cands : list (nat * string * option Coords))
    (cand : nat * string * option Coords) : Prop :=
  ∃ before after,
    cands = before ++ cand :: after
    ∧ is_hit x y cand = true
    ∧ Forall (λ c, is_hit x y c = false) before.

(** Two LMG skeletons one pixel apart; the click at (320, 240) is on the
    cover of the second and 1 pixel from the cover of the first. *)
Definition two_overlapping : Tool :=
  mkTool [mkSkeleton 1 (default_positions LMG 321 240) LMG;
          mkSkeleton 2 (default_positions LMG 320 240) LMG] ∅
    (Some (480, 640)) "a.png" 1%Q 0 0 None false [0; 1]%nat ∅
    [add_skeleton 1; add_skeleton 0] [] None None
    (mkImageLabel None None false) LMG.

(** Two LMG skeletons at the same place. *)
Definition two_identical : Tool :=
  mkTool [mkSkeleton 1 (default_positions LMG 320 240) LMG;
          mkSkeleton 2 (default_positions LMG 320 240) LMG] ∅
    (Some (480, 640)) "a.png" 1%Q 0 0 None false [0; 1]%nat ∅
    [add_skeleton 1; add_skeleton 0] [] None None
    (mkImageLabel None None false) LMG.

Definition no_space (s : str) : Prop := Forall (λ c, is_space c = false) s.

(** A token: not empty and without blanks. *)
Definition token (s : str) : Prop := s ≠ [] ∧ no_space s.

Definition is_digit (c : ascii) : Prop := is_Some (digit_val c).

(** The magnitude that [format_6f] prints, in millionths. *)
Definition millionths (q : Q) : Z :=
  round_half_even (Qabs q * inject_Z 1000000).

(** The decimal number that [format_6f q] writes. *)
Definition quantized (q : Q) : Q :=
  if Qle_bool 0 q then Qmake (millionths q) 1000000
  else Qopp (Qmake (millionths q) 1000000).

(** The two tokens written for a part. *)
Definition keypoint_pair (W H : Z) (ann : dict (option Coords))
    (part : string) : str * str :=
  match get_coords part ann with
  | Some (x, y) =>
      (format_6f (fdiv x (inject_Z W)), format_6f (fdiv y (inject_Z H)))
  | None => (lit "-1", lit "-1")
  end.

Definition pair_tokens (p : str * str) : list str := [p.1; p.2].

(** The normalised positions of the present parts, in part order. *)
Definition normalized (W H : Z) (ann : dict (option Coords))
    (parts : list string) : list (Q * Q) :=
  omap (λ part, '(x, y) ← get_coords part ann;
                Some (fdiv x (inject_Z W), fdiv y (inject_Z H))) parts.

(** The tokens of the line of a skeleton whose first present part is
    normalised to [p0], the others to [ps]. *)
Definition line_tokens (W H : Z) (sk : Skeleton) (p0 : Q * Q)
    (ps : list (Q * Q)) : list str :=
  let min_x := min_from p0.1 (fst <$> ps) in
  let max_x := max_from p0.1 (fst <$> ps) in
  let min_y := min_from p0.2 (snd <$> ps) in
  let max_y := max_from p0.2 (snd <$> ps) in
  [format_int (class_index (skeleton_type sk));
   format_6f (fdiv (fadd min_x max_x) 2);
   format_6f (fdiv (fadd min_y max_y) 2);
   format_6f (fsub max_x min_x); format_6f (fsub max_y min_y)]
  ++ (skeleton_parts (skeleton_type sk)
        ≫= λ part, pair_tokens (keypoint_pair W H (annotations sk) part)).

(** The [float] read from the token written for the coordinate [x] on
    an axis of size [size]. *)
Definition read_back (x : Q) (size : Z) : Q :=
  binary64 (quantized (fdiv x (inject_Z size))).

(** The position read back for a part whose position was [c]. *)
Definition decoded (W H : Z) (c : option Coords) : option Coords :=
  match c with
  | Some (x, y) =>
      let qx := read_back x W in
      let qy := read_back y H in
      if Qle_bool 0 qx && Qle_bool 0 qy
      then Some (fmul qx (inject_Z W), fmul qy (inject_Z H))
      else None
  | None => None
  end.

(** The annotation that the decoder stores for part [p] when the two
    tokens of the part read as the numbers [val p]. *)
Definition stored (W H : Z) (val : string → Q * Q) (p : string)
  : option Coords :=
  if Qle_bool 0 (val p).1 && Qle_bool 0 (val p).2
  then Some (fmul (val p).1 (inject_Z W), fmul (val p).2 (inject_Z H))
  else None.

(** The numbers read from the two tokens of a part. *)
Definition pair_value (W H : Z) (ann : dict (option Coords))
    (part : string) : Q * Q :=
  match get_coords part ann with
  | Some (x, y) => (read_back x W, read_back y H)
  | None => ((-1 # 1)%Q, (-1 # 1)%Q)
  end.

(** The annotations that [load_annotations] builds from the line of
    [sk]. *)
Definition decoded_annotations (W H : Z) (sk : Skeleton)
  : dict (option Coords) :=
  (λ part, (part, decoded W H (get_coords part (annotations sk))))
    <$> skeleton_parts (skeleton_type sk).

(** The lines as [readlines] returns them: each but the last keeps its
    line feed. *)
Fixpoint with_line_feeds (lines : list str) : list str :=
  match lines with
  | [] => []
  | [x] => [x]
  | x :: rest => (x ++ [newline]) :: with_line_feeds rest
  end.

(** A loaded skeleton has the type of the saved one and the positions the
    decoder read. *)
Definition loaded_from (W H : Z) (sk sk' : Skeleton) : Prop :=
  skeleton_type sk' = skeleton_type sk
  ∧ annotations sk' = decoded_annotations W H sk.

(** The present parts of a skeleton. *)
Definition has_present (sk : Skeleton) : Prop :=
  ∃ part, part ∈ skeleton_parts (skeleton_type sk)
          ∧ is_Some (get_coords part (annotations sk)).

(** The allowance for the roundings of the [float] operations between a
    coordinate [x] and the one read back (the division by the image size,
    the reading of the decimal and the multiplication by the image size):
    [2 ^ -51] of the image size plus the coordinate. *)
Definition float_slack (size : Z) (x : Q) : Q :=
  ((inject_Z size + x) * (1 # 2251799813685248))%Q.

(** [c'] is [c] up to half a millionth of the image size on each axis and
    the rounding of the [float] operations. *)
Definition close_to (W H : Z) (c c' : Coords) : Prop :=
  (Qabs (c'.1 - c.1) <= (1 # 2000000) * inject_Z W + float_slack W c.1)%Q
  ∧ (Qabs (c'.2 - c.2) <= (1 # 2000000) * inject_Z H + float_slack H c.2)%Q.

(** Same type, same present parts, positions up to quantisation. *)
Definition same_keypoints (W H : Z) (sk sk' : Skeleton) : Prop :=
  skeleton_type sk' = skeleton_type sk
  ∧ ∀ part, part ∈ skeleton_parts (skeleton_type sk) →
      match get_coords part (annotations sk),
            get_coords part (annotations sk') with
      | Some c, Some c' => close_to W H c c'
      | None, None => True
      | _, _ => False
      end.

(** No present part has a negative coordinate. *)
Definition nonnegative (sk : Skeleton) : Prop :=
  ∀ part x y, part ∈ skeleton_parts (skeleton_type sk) →
    get_coords part (annotations sk) = Some (x, y) → (0 <= x)%Q ∧ (0 <= y)%Q.

(** A path function for the examples. *)
Definition example_label_path (folder image : string) : string :=
  (folder ++ "/" ++ image ++ ".txt")%string.

(** The round trip through the annotation file: saving the skeletons of
    [t] and loading the file gives skeletons with the same key points. *)
Definition round_trips (label_file_path : string → string → string)
    (t : Tool) : Prop :=
  ∃ H W sks t1 t2 sks',
    image t = Some (H, W)
    ∧ live_skeletons t = Some sks
    ∧ save_annotations label_file_path t = Some t1
    ∧ load_annotations label_file_path t1 = Some t2
    ∧ live_skeletons t2 = Some sks'
    ∧ Forall2 (same_keypoints W H) sks sks'.

(** The state after adding an LMG skeleton to a 100 by 100 image, with a
    save folder selected. *)
Definition small_image : Tool :=
  mkTool [mkSkeleton 1 (default_positions LMG 50 50) LMG] ∅
    (Some (100, 100)) "a.png" 1%Q 0 0 (Some "out"%string) false [0%nat] ∅
    [add_skeleton 0] [] (Some 0%nat) None (mkImageLabel None None false) LMG.

(** The state after adding an LMG skeleton to a 640 by 480 image, with a
    save folder selected. *)
Definition large_image : Tool :=
  mkTool [mkSkeleton 1 (default_positions LMG 320 240) LMG] ∅
    (Some (480, 640)) "a.png" 1%Q 0 0 (Some "out"%string) false [0%nat] ∅
    [add_skeleton 0] [] (Some 0%nat) None (mkImageLabel None None false) LMG.

(** An LMG skeleton of which only the butt is present, at (100, 100). *)
Definition only_butt : Skeleton :=
  mkSkeleton 1
    [("butt", at_ 100 100); ("pistol grip", None); ("trigger", None);
     ("cover", None); ("rear sight", None); ("barrel jacket", None);
     ("left bipod", None); ("right bipod", None)]%string LMG.

(** [sk] with [annotations[part] = v]. *)
Definition with_annotation (part : string) (v : option Coords)
    (sk : Skeleton) : Skeleton :=
  mkSkeleton (skeleton_id sk) (dict_set part v (annotations sk))
    (skeleton_type sk).

(** The undo log describes how the object table and the skeleton list
    came about: undoing the newest record gives the state that the rest
    of the log describes. *)
Fixpoint consistent (history : list Action) (objs : list Skeleton)
    (sks : list nat) : Prop :=
  match history with
  | [] => True
  | add_skeleton r :: h =>
      ∃ sks', sks = sks' ++ [r] ∧ (r ∉ sks') ∧ (r < length objs)%nat
              ∧ consistent h objs sks'
  | move_keypoint r part old new :: h =>
      ∃ sk, objs !! r = Some sk
            ∧ dict_lookup part (annotations sk) = Some (Some new)
            ∧ consistent h (<[r := with_annotation part old sk]> objs) sks
  | delete_keypoint r part old :: h =>
      ∃ sk, objs !! r = Some sk
            ∧ dict_lookup part (annotations sk) = Some None
            ∧ consistent h (<[r := with_annotation part old sk]> objs) sks
  | reset _ :: _ => False
  end.

(** Agreement on the store: objects, skeleton list, both logs and the
    image. *)
Definition same_store (t u : Tool) : Prop :=
  heap t = heap u ∧ skeletons t = skeletons u
  ∧ annotation_history t = annotation_history u
  ∧ redo_stack t = redo_stack u ∧ image t = image u.

(** The editing events: adding a skeleton, dragging a key point (press,
    move, release), deleting the selected key point, and changes of the
    view. *)
Definition edit_event (e : Event) : Prop :=
  match e with
  | SetSkeletonType _ | MousePress _ _ | MouseMove _ _ | MouseRelease
  | KeyDelete | Wheel _ | Pan _ _ => True
  | _ => False
  end.

(** A state right after an image was loaded: nothing to undo or redo. *)
Definition fresh (t : Tool) : Prop :=
  is_Some (image t) ∧ annotation_history t = [] ∧ redo_stack t = []
  ∧ refs_ok t.

(** What holds while the user edits. *)
Definition edit_inv (t : Tool) : Prop :=
  is_Some (image t) ∧ redo_stack t = [] ∧ refs_ok t
  ∧ consistent (annotation_history t) (heap t) (skeletons t).

(** A freshly loaded 640 by 480 image without annotations. *)
Definition empty_image : Tool :=
  mkTool [] ∅ (Some (480, 640)) "a.png" 1%Q 0 0 None false [] ∅ [] [] None
    None (mkImageLabel None None false) LMG.

(** Adding an LMG skeleton, dragging its cover, deleting the cover,
    adding a rifle skeleton and dragging its butt. *)
Definition sample_edits : list Event :=
  [SetSkeletonType LMG; MousePress 320 240; MouseMove 300 200;
   MouseMove 10 700; MouseRelease; KeyDelete; SetSkeletonType Rifle;
   MousePress 220 240; MouseMove 1 1].

(** No part of [sk] is present. *)
Definition nothing_present (sk : Skeleton) : Prop :=
  ∀ part, part ∈ skeleton_parts (skeleton_type sk) →
          get_coords part (annotations sk) = None.

(** An LMG skeleton whose key points were all deleted, with an annotation
    file left from an earlier save. *)
Definition all_deleted : Tool :=
  mkTool
    [mkSkeleton 1
       [("butt", None); ("pistol grip", None); ("trigger", None);
        ("cover", None); ("rear sight", None); ("barrel jacket", None);
        ("left bipod", None); ("right bipod", None)]%string LMG]
    {[ example_label_path "out" "a.png" := lit "0 0.5 0.5 0 0 0.5 0.5" ]}
    (Some (480, 640)) "a.png" 1%Q 0 0 (Some "out"%string) false [0%nat] ∅
    [] [] (Some 0%nat) None (mkImageLabel None None false) LMG.









(** Numbering from [first]. *)
Definition numbered {A} (first : Z) (l : list A) : list (Z * A) :=
  zip (seqZ first (Z.of_nat (length l))) l.

(** * Properties *)

(** ** Rounding *)

Lemma round_half_even_near (q : Q) :
  (inject_Z (round_half_even q) - (1 # 2) <= q)%Q
  ∧ (q <= inject_Z (round_half_even q) + (1 # 2))%Q.
Proof.
  destruct q as [n d]. unfold round_half_even. cbn [Qnum Qden].
  pose proof (Z.div_mod n (Z.pos d) ltac:(lia)) as Hdm.
  pose proof (Z.mod_pos_bound n (Z.pos d) ltac:(lia)) as Hb.
  set (f := n / Z.pos d) in *. set (r := n mod Z.pos d) in *.
  assert (∀ z : Z, 2 * z * Z.pos d - Z.pos d ≤ 2 * n ≤ 2 * z * Z.pos d + Z.pos d →
                   (inject_Z z - (1 # 2) <= n # d)%Q
                   ∧ (n # d <= inject_Z z + (1 # 2))%Q) as Hz.
  { intros z Hz. unfold Qle, Qminus, Qplus, Qopp, inject_Z.
    cbn [Qnum Qden]. rewrite !Pos2Z.inj_mul. lia. }
  apply Hz.
  destruct (2 * r <? Z.pos d) eqn:E1; [apply Z.ltb_lt in E1; nia |].
  apply Z.ltb_ge in E1.
  destruct (Z.pos d <? 2 * r) eqn:E2; [apply Z.ltb_lt in E2; nia |].
  apply Z.ltb_ge in E2.
  destruct (Z.even f); nia.
Qed.

Lemma round_half_even_nonneg (q : Q) : (0 <= q)%Q → 0 ≤ round_half_even q.
Proof.
  destruct q as [n d]. unfold Qle, round_half_even. cbn [Qnum Qden].
  rewrite Z.mul_1_r. intros Hn.
  assert (0 ≤ n / Z.pos d) by (apply Z.div_pos; lia).
  destruct (2 * (n mod Z.pos d) <? Z.pos d); [assumption |].
  destruct (Z.pos d <? 2 * (n mod Z.pos d)); [lia |].
  destruct (Z.even (n / Z.pos d)); lia.
Qed.

Lemma pow2_pos (e : Z) : (0 < 2 ^ e)%Q.
Proof. apply Qpower_0_lt. reflexivity. Qed.

Lemma pow2_inject (a : Z) : 0 ≤ a → (2 ^ a == inject_Z (2 ^ a))%Q.
Proof. intros Ha. rewrite Zpower_Qpower by exact Ha. reflexivity. Qed.

Lemma inject_Z_pos (z : Z) : 0 < z → (0 < inject_Z z)%Q.
Proof. intros Hz. unfold Qlt, inject_Z. cbn [Qnum Qden]. lia. Qed.

(** A power of two with the exponent written as a difference is a
    quotient of two integers. *)
Lemma pow2_quotient (a b : Z) :
  0 ≤ a → 0 ≤ b → (2 ^ (a - b) == inject_Z (2 ^ a) / inject_Z (2 ^ b))%Q.
Proof.
  intros Ha Hb. rewrite Qpower_minus by discriminate.
  rewrite !pow2_inject by assumption. reflexivity.
Qed.

(** [ilog2] gives the exponent of the leading bit. *)
Lemma ilog2_spec (q : Q) :
  (0 < q)%Q → (2 ^ ilog2 q <= q)%Q ∧ (q < 2 ^ (ilog2 q + 1))%Q.
Proof.
  destruct q as [n d]. intros Hq.
  assert (0 < n) as Hn by (unfold Qlt in Hq; cbn [Qnum Qden] in Hq; lia).
  unfold ilog2. cbn [Qnum Qden].
  pose proof (Z.log2_spec n Hn) as [Hn1 Hn2].
  pose proof (Z.log2_spec (Z.pos d) ltac:(lia)) as [Hd1 Hd2].
  pose proof (Z.log2_nonneg n) as Ha.
  pose proof (Z.log2_nonneg (Z.pos d)) as Hb.
  set (a := Z.log2 n) in *. set (b := Z.log2 (Z.pos d)) in *.
  assert (0 < 2 ^ a) as Hpa by (apply Z.pow_pos_nonneg; lia).
  assert (0 < 2 ^ b) as Hpb by (apply Z.pow_pos_nonneg; lia).
  assert (0 < 2 ^ (b + 1)) as Hpb1 by (apply Z.pow_pos_nonneg; lia).
  assert (0 < 2 ^ (a + 1)) as Hpa1 by (apply Z.pow_pos_nonneg; lia).
  replace (Z.succ a) with (a + 1) in Hn2 by lia.
  replace (Z.succ b) with (b + 1) in Hd2 by lia.
  destruct (Qle_bool (2 ^ (a - b)) (n # d)) eqn:E.
  - split; [apply Qle_bool_iff; exact E |].
    replace (a - b + 1) with ((a + 1) - b) by lia.
    rewrite pow2_quotient by lia.
    apply Qlt_shift_div_l; [apply inject_Z_pos; exact Hpb |].
    unfold Qlt, Qmult, inject_Z. cbn [Qnum Qden]. nia.
  - split.
    + replace (a - b - 1) with (a - (b + 1)) by lia.
      rewrite pow2_quotient by lia.
      apply Qle_shift_div_r; [apply inject_Z_pos; exact Hpb1 |].
      unfold Qle, Qmult, inject_Z. cbn [Qnum Qden]. nia.
    + replace (a - b - 1 + 1) with (a - b) by lia.
      apply Qnot_le_lt. intros Hle. apply Qle_bool_iff in Hle. congruence.
Qed.

Lemma ulp_pos (e : Z) : (0 < ulp e)%Q.
Proof. apply pow2_pos. Qed.

(** Half a unit in the last place at exponent [e]. *)
Lemma half_ulp (e : Z) : (ulp e / 2 == 2 ^ (Z.max e (-1022) - 53))%Q.
Proof.
  unfold ulp. replace (Z.max e (-1022) - 53) with (Z.max e (-1022) - 52 - 1)
    by lia.
  rewrite (Qpower_minus 2 (Z.max e (-1022) - 52) 1) by discriminate.
  reflexivity.
Qed.

(** The value of [binary64] before it is put in lowest terms. *)
Lemma binary64_value (q : Q) :
  ¬ (q == 0)%Q →
  (binary64 q
   == inject_Z (round_half_even (q / ulp (ilog2 (Qabs q))))
      * ulp (ilog2 (Qabs q)))%Q.
Proof.
  intros Hq. unfold binary64.
  destruct (Qeq_bool q 0) eqn:E; [apply Qeq_bool_iff in E; contradiction |].
  apply Qred_correct.
Qed.

Lemma binary64_zero (q : Q) : (q == 0)%Q → binary64 q = 0%Q.
Proof.
  intros Hq. unfold binary64. apply Qeq_bool_iff in Hq. rewrite Hq.
  reflexivity.
Qed.

(** [binary64 q] is within half a unit in the last place of [q]. *)
Lemma binary64_near (q : Q) :
  (Qabs (binary64 q - q) <= ulp (ilog2 (Qabs q)) / 2)%Q.
Proof.
  pose proof (ulp_pos (ilog2 (Qabs q))) as Hu.
  destruct (Qeq_dec q 0) as [Hq | Hq].
  - rewrite (binary64_zero q Hq).
    set (u := ulp (ilog2 (Qabs q))) in *.
    assert (u / 2 == u * (1 # 2))%Q as -> by field.
    apply Qabs_Qle_condition. split; lra.
  - rewrite (binary64_value q Hq).
    set (u := ulp (ilog2 (Qabs q))) in *.
    destruct (round_half_even_near (q / u)) as [H1 H2].
    set (m := inject_Z (round_half_even (q / u))) in *.
    assert (q == (q / u) * u)%Q as Eq
      by (rewrite Qmult_comm, Qmult_div_r; [reflexivity | lra]).
    set (r := (q / u)%Q) in *.
    assert (0 <= (m + (1 # 2) - r) * u)%Q as Ha
      by (apply Qmult_le_0_compat; lra).
    assert (0 <= (r + (1 # 2) - m) * u)%Q as Hb
      by (apply Qmult_le_0_compat; lra).
    apply Qabs_Qle_condition. 
    assert (u / 2 == u * (1 # 2))%Q as -> by (field).
    split; lra.
Qed.

Lemma Qabs_nonzero (q : Q) : ¬ (q == 0)%Q → (0 < Qabs q)%Q.
Proof.
  intros Hq. destruct (Qlt_le_dec 0 q) as [Hp | Hn].
  - rewrite Qabs_pos by lra. exact Hp.
  - rewrite Qabs_neg by exact Hn.
    destruct (Qle_lt_or_eq _ _ Hn) as [Hl | He]; [lra | contradiction].
Qed.

(** The relative error of rounding is at most [2 ^ -53], except for
    subnormal numbers, where the error is at most [2 ^ -1075]. *)
Lemma binary64_error (q : Q) :
  (Qabs (binary64 q - q)
   <= (1 # 9007199254740992) * Qabs q + 2 ^ (-1075))%Q.
Proof.
  pose proof (Qabs_nonneg q) as Hq.
  pose proof (pow2_pos (-1075)) as He.
  assert (0 <= (1 # 9007199254740992) * Qabs q)%Q as Hr
    by (apply Qmult_le_0_compat; [discriminate | exact Hq]).
  destruct (Qeq_dec q 0) as [H0 | H0].
  { rewrite (binary64_zero q H0). apply Qabs_Qle_condition. split; lra. }
  eapply Qle_trans; [apply binary64_near |]. rewrite half_ulp.
  destruct (Z.max_spec (ilog2 (Qabs q)) (-1022)) as [[Hlt ->] | [Hge ->]].
  - change (-1022 - 53) with (-1075). lra.
  - pose proof (Qabs_nonzero q H0) as Hpos.
    destruct (ilog2_spec (Qabs q) Hpos) as [Hlow _].
    replace (ilog2 (Qabs q) - 53) with (ilog2 (Qabs q) + (-53)) by lia.
    rewrite Qpower_plus by discriminate.
    change (2 ^ (-53))%Q with (/ (9007199254740992 # 1))%Q.
    change (/ (9007199254740992 # 1))%Q with (1 # 9007199254740992)%Q.
    set (p := (2 ^ ilog2 (Qabs q))%Q) in *.
    assert (0 <= (Qabs q - p) * (1 # 9007199254740992))%Q
      by (apply Qmult_le_0_compat; [lra | discriminate]).
    lra.
Qed.

Lemma binary64_nonneg (q : Q) : (0 <= q)%Q → (0 <= binary64 q)%Q.
Proof.
  intros Hq. destruct (Qeq_dec q 0) as [H0 | H0].
  - rewrite (binary64_zero q H0). apply Qle_refl.
  - rewrite (binary64_value q H0).
    pose proof (ulp_pos (ilog2 (Qabs q))) as Hu.
    apply Qmult_le_0_compat; [|lra].
    change 0%Q with (inject_Z 0). rewrite <- Zle_Qle.
    apply round_half_even_nonneg. apply Qle_shift_div_l; [exact Hu | lra].
Qed.

(** The rounding error in a form for linear arithmetic. *)
Lemma binary64_error_nonneg (q : Q) :
  (0 <= q)%Q →
  (0 <= binary64 q)%Q
  ∧ (binary64 q - q <= (1 # 9007199254740992) * q
                       + (1 # 1152921504606846976))%Q
  ∧ (q - binary64 q <= (1 # 9007199254740992) * q
                       + (1 # 1152921504606846976))%Q.
Proof.
  intros Hq. split; [apply binary64_nonneg; exact Hq |].
  pose proof (binary64_error q) as He.
  rewrite (Qabs_pos q Hq) in He.
  assert (2 ^ (-1075) <= 2 ^ (-60))%Q as Hs
    by (apply Qpower_le_compat_l; [lia | discriminate]).
  change (2 ^ (-60))%Q with (/ (1152921504606846976 # 1))%Q in Hs.
  change (/ (1152921504606846976 # 1))%Q with (1 # 1152921504606846976)%Q in Hs.
  apply Qabs_Qle_condition in He. split; lra.
Qed.

(** [binary64 q] is a binary64 number: an integer significand of at most
    53 bits times the unit in the last place. *)
Lemma binary64_significand (q : Q) :
  ¬ (q == 0)%Q →
  Z.abs (round_half_even (q / ulp (ilog2 (Qabs q)))) ≤ 2 ^ 53.
Proof.
  intros Hq. pose proof (Qabs_nonzero q Hq) as Hpos.
  destruct (ilog2_spec (Qabs q) Hpos) as [_ Hup].
  pose proof (ulp_pos (ilog2 (Qabs q))) as Hu.
  set (e := ilog2 (Qabs q)) in *.
  assert (Qabs q <= inject_Z (2 ^ 53) * ulp e)%Q as Hb.
  { unfold ulp. rewrite <- pow2_inject by lia.
    rewrite <- Qpower_plus by discriminate.
    eapply Qle_trans; [apply Qlt_le_weak; exact Hup |].
    apply Qpower_le_compat_l; [lia | discriminate]. }
  destruct (round_half_even_near (q / ulp e)) as [H1 H2].
  set (m := round_half_even (q / ulp e)) in *.
  assert (q == (q / ulp e) * ulp e)%Q as Eq
    by (rewrite Qmult_comm, Qmult_div_r; [reflexivity | lra]).
  set (r := (q / ulp e)%Q) in *.
  assert (- inject_Z (2 ^ 53) <= r <= inject_Z (2 ^ 53))%Q as [Hr1 Hr2].
  { apply Qabs_Qle_condition in Hb. destruct Hb as [Hb1 Hb2].
    split.
    - apply Qnot_lt_le. intros Hlt.
      assert (0 < (- inject_Z (2 ^ 53) - r) * ulp e)%Q
        by (apply Qmult_lt_0_compat; lra).
      lra.
    - apply Qnot_lt_le. intros Hlt.
      assert (0 < (r - inject_Z (2 ^ 53)) * ulp e)%Q
        by (apply Qmult_lt_0_compat; lra).
      lra. }
  assert (inject_Z m < inject_Z (2 ^ 53 + 1))%Q as Hm1.
  { rewrite inject_Z_plus. change (inject_Z 1) with 1%Q. lra. }
  assert (inject_Z (- 2 ^ 53 - 1) < inject_Z m)%Q as Hm2.
  { unfold Z.sub. rewrite inject_Z_plus, inject_Z_opp.
    change (inject_Z (- (1))) with (- (1))%Q. lra. }
  rewrite <- Zlt_Qlt in Hm1, Hm2. lia.
Qed.

(** ** The smallest free identifier *)

Lemma fold_min_le (r : list Z) (x : Z) :
  fold_left Z.min r x ≤ x ∧ Forall (λ y, fold_left Z.min r x ≤ y) r.
Proof.
  revert x. induction r as [|y r IH]; intros x; simpl.
  - split; [lia | constructor].
  - destruct (IH (Z.min x y)) as [H1 H2]. split; [lia |].
    constructor; [lia | exact H2].
Qed.

Lemma fold_min_elem (r : list Z) (x : Z) : fold_left Z.min r x ∈ x :: r.
Proof.
  revert x. induction r as [|y r IH]; intros x; simpl.
  - left.
  - specialize (IH (Z.min x y)). apply elem_of_cons in IH as [IH | IH].
    + rewrite IH. destruct (Z.min_spec x y) as [[_ ->] | [_ ->]].
      * left.
      * right. left.
    + right. right. exact IH.
Qed.

(** [min] of a non-empty set is its least element. *)
Lemma py_min_set_spec (s : gset Z) (x : Z) :
  x ∈ s → ∃ m, py_min_set s = Some m ∧ m ∈ s ∧ ∀ y, y ∈ s → m ≤ y.
Proof.
  intros Hx. unfold py_min_set.
  destruct (elements s) as [|a r] eqn:E.
  - apply elem_of_elements in Hx. rewrite E in Hx. inversion Hx.
  - eexists. split; [reflexivity |]. split.
    + apply elem_of_elements. rewrite E. apply fold_min_elem.
    + intros y Hy. apply elem_of_elements in Hy. rewrite E in Hy.
      destruct (fold_min_le r a) as [H1 H2].
      apply elem_of_cons in Hy as [-> | Hy]; [exact H1 |].
      rewrite Forall_forall in H2. apply H2. exact Hy.
Qed.

Lemma size_list_to_set_le (l : list Z) :
  (size (list_to_set l : gset Z) ≤ length l)%nat.
Proof.
  induction l as [|a l IH].
  - rewrite list_to_set_nil, size_empty. simpl. lia.
  - rewrite list_to_set_cons, size_union_alt, size_singleton. simpl.
    assert ((list_to_set l ∖ {[a]} : gset Z) ⊆ list_to_set l) as Hsub.
    { intros y Hy. apply elem_of_difference in Hy as [Hy _]. exact Hy. }
    apply subseteq_size in Hsub. lia.
Qed.

(** Among the first [n + 1] positive integers one is not in a list of
    length at most [n]. *)
Lemma free_id_exists (ids : list Z) (n : Z) :
  Z.of_nat (length ids) < n →
  ∃ x, x ∈ (list_to_set (seqZ 1 n) ∖ list_to_set ids : gset Z).
Proof.
  intros Hn.
  destruct (decide ((list_to_set (seqZ 1 n) ∖ list_to_set ids : gset Z) = ∅))
    as [E | NE].
  - exfalso.
    assert ((list_to_set (seqZ 1 n) : gset Z) ⊆ list_to_set ids) as Hsub.
    { intros y Hy.
      destruct (decide (y ∈ (list_to_set ids : gset Z))) as [|Hny];
        [assumption | exfalso].
      apply (not_elem_of_empty (C := gset Z) y). rewrite <- E.
      apply elem_of_difference. split; assumption. }
    apply subseteq_size in Hsub.
    rewrite size_list_to_set in Hsub by apply NoDup_seqZ.
    rewrite length_seqZ in Hsub.
    pose proof (size_list_to_set_le ids). lia.
  - apply set_choose_L in NE. exact NE.
Qed.

Lemma get_next_skeleton_id_spec (t : Tool) (sks : list Skeleton) :
  live_skeletons t = Some sks →
  ∃ m, get_next_skeleton_id t = Some m
       ∧ smallest_unused (skeleton_id <$> sks) m.
Proof.
  intros Hl. unfold get_next_skeleton_id. rewrite Hl. simpl.
  assert (length (skeletons t) = length sks) as Hlen
    by (eapply length_mapM; exact Hl).
  set (n := Z.of_nat (length (skeletons t))
            + Z.of_nat (size (deleted_skeleton_ids t)) + 1).
  destruct (free_id_exists (skeleton_id <$> sks) n) as [x Hx].
  { rewrite length_fmap. lia. }
  destruct (py_min_set_spec _ x Hx) as (m & Hm & Hin & Hleast).
  exists m. split; [exact Hm |].
  apply elem_of_difference in Hin as [Hr Hne].
  rewrite elem_of_list_to_set in Hr, Hne.
  apply elem_of_seqZ in Hr.
  split; [lia |]. split; [exact Hne |].
  intros k Hk.
  destruct (decide (k ∈ skeleton_id <$> sks)) as [|Hnk]; [assumption |].
  exfalso.
  assert (k ∈ (list_to_set (seqZ 1 n) ∖ list_to_set (skeleton_id <$> sks)
               : gset Z)) as Hk'.
  { apply elem_of_difference. rewrite !elem_of_list_to_set.
    split; [apply elem_of_seqZ; lia | exact Hnk]. }
  apply Hleast in Hk'. lia.
Qed.

Lemma bounded_mono (n m : nat) (t : Tool) :
  (n ≤ m)%nat → bounded n t → bounded m t.
Proof.
  intros Hnm [H1 H2 H3 H4 H5].
  split.
  - eapply Forall_impl; [exact H1 |]. simpl. intros. lia.
  - eapply Forall_impl; [exact H2 |]. simpl. intros a Ha.
    eapply Forall_impl; [exact Ha |]. simpl. intros. lia.
  - eapply Forall_impl; [exact H3 |]. simpl. intros a Ha.
    eapply Forall_impl; [exact Ha |]. simpl. intros. lia.
  - intros r Hr. specialize (H4 r Hr). lia.
  - intros r Hr. specialize (H5 r Hr). lia.
Qed.

Lemma refs_ok_live (t : Tool) :
  Forall (λ r, r < length (heap t))%nat (skeletons t) →
  ∃ sks, live_skeletons t = Some sks.
Proof.
  unfold live_skeletons, deref. generalize (skeletons t) as l.
  induction l as [|r l IH]; intros H.
  - exists []. reflexivity.
  - inversion H as [|? ? Hr Hl]; subst.
    destruct (IH Hl) as [sks Hs].
    destruct (lookup_lt_is_Some_2 (heap t) r Hr) as [sk Hsk].
    exists (sk :: sks). simpl. rewrite Hsk. simpl. rewrite Hs. reflexivity.
Qed.

Lemma set_annotation_Some (r : nat) (part : string) (v : option Coords)
    (t t' : Tool) :
  set_annotation r part v t = Some t' →
  ∃ sk, heap t !! r = Some sk
        ∧ t' = set_heap (<[r := mkSkeleton (skeleton_id sk)
                                  (dict_set part v (annotations sk))
                                  (skeleton_type sk)]> (heap t)) t.
Proof.
  unfold set_annotation, deref. intros H.
  destruct (heap t !! r) as [sk|] eqn:E; simpl in H; [|discriminate].
  exists sk. split; [reflexivity | congruence].
Qed.

Lemma set_annotation_refs_ok (r : nat) (part : string) (v : option Coords)
    (t t' : Tool) :
  set_annotation r part v t = Some t' → refs_ok t → refs_ok t'.
Proof.
  intros H Hok. apply set_annotation_Some in H as (sk & _ & ->).
  unfold refs_ok in *. simpl. rewrite length_insert.
  destruct Hok; split; assumption.
Qed.

Lemma list_remove_Forall (P : nat → Prop) (x : nat) (l l' : list nat) :
  list_remove x l = Some l' → Forall P l → Forall P l'.
Proof.
  revert l'. induction l as [|y l IH]; intros l' H Hl; simpl in H.
  - discriminate.
  - inversion Hl; subst. destruct (Nat.eqb x y).
    + congruence.
    + destruct (list_remove x l) as [l0|]; simpl in H; [|discriminate].
      injection H as <-. constructor; auto.
Qed.

Lemma add_new_skeleton_refs_ok (t t' : Tool) :
  add_new_skeleton t = Some t' → refs_ok t → refs_ok t'.
Proof.
  unfold add_new_skeleton. intros H Hok.
  destruct (image t) as [[height width]|]; [|congruence].
  destruct (get_next_skeleton_id t) as [m|]; simpl in H; [|discriminate].
  injection H as <-. unfold refs_ok. simpl. rewrite length_app. simpl.
  apply (bounded_mono _ (length (heap t) + 1)) in Hok; [|lia].
  destruct Hok as [H1 H2 H3 H4 H5]. split; simpl.
  - apply Forall_app. split; [exact H1 |]. repeat constructor. lia.
  - constructor; [|exact H2]. repeat constructor. lia.
  - constructor.
  - intros r [= <-]. lia.
  - exact H5.
Qed.

Lemma hit_test_bound (t : Tool) (x y : Q) (sks : list nat) (r : nat)
    (part : string) :
  hit_test t x y sks = Some (Some (r, part)) →
  (r < length (heap t))%nat ∧ r ∈ sks.
Proof.
  induction sks as [|r0 sks IH]; simpl; intros H.
  - discriminate.
  - unfold deref in H. destruct (heap t !! r0) as [sk|] eqn:E; simpl in H;
      [|discriminate].
    destruct (hit_keypoint x y (annotations sk)).
    + injection H as <- <-. split; [|left].
      eapply lookup_lt_Some. exact E.
    + destruct (IH H) as [H1 H2]. split; [exact H1 | right; exact H2].
Qed.

Lemma mousePressEvent_refs_ok (ex ey : Z) (t t' : Tool) :
  mousePressEvent ex ey t = Some t' → refs_ok t → refs_ok t'.
Proof.
  unfold mousePressEvent. intros H Hok.
  destruct (image t); [|congruence].
  destruct (to_image_space t ex ey) as [x y].
  destruct (hit_test t x y (skeletons t)) as [[[r part]|]|] eqn:E;
    simpl in H; [| congruence | discriminate].
  injection H as <-. apply hit_test_bound in E as [E _].
  destruct Hok as [H1 H2 H3 H4 H5]. split; simpl; try assumption.
  - intros r' [= <-]. exact E.
  - intros r' [= <-]. exact E.
Qed.

Lemma mouseMoveEvent_refs_ok (ex ey : Z) (t t' : Tool) :
  mouseMoveEvent ex ey t = Some t' → refs_ok t → refs_ok t'.
Proof.
  unfold mouseMoveEvent. intros H Hok.
  destruct (dragging_keypoint (image_label t)); [|congruence].
  destruct (label_selected_keypoint (image_label t)) as [part|]; [|congruence].
  destruct (label_selected_skeleton (image_label t)) as [r|] eqn:Er;
    [|congruence].
  destruct (to_image_space t ex ey) as [x y].
  destruct (image t) as [[height width]|]; simpl in H; [|discriminate].
  destruct (deref t r) as [sk|]; simpl in H; [|discriminate].
  destruct (dict_lookup part (annotations sk)) as [old|]; simpl in H;
    [|discriminate].
  match type of H with
  | context [set_annotation ?a ?b ?c ?d] =>
      destruct (set_annotation a b c d) as [t1|] eqn:E1
  end; simpl in H; [|discriminate].
  injection H as <-. pose proof (bounded_label _ _ Hok _ Er) as Hr.
  apply set_annotation_Some in E1 as (sk' & _ & ->).
  unfold refs_ok. simpl. rewrite length_insert.
  destruct Hok as [H1 H2 H3 H4 H5]. split; simpl; try assumption.
  - constructor; [|exact H2]. repeat constructor. exact Hr.
  - constructor.
Qed.

Lemma delete_key_refs_ok (t t' : Tool) :
  delete_key t = Some t' → refs_ok t → refs_ok t'.
Proof.
  unfold delete_key. intros H Hok.
  destruct (selected_skeleton t) as [r|] eqn:Er; [|congruence].
  destruct (selected_keypoint t) as [part|]; [|congruence].
  destruct (deref t r) as [sk|]; simpl in H; [|discriminate].
  destruct (dict_lookup part (annotations sk)) as [old|]; simpl in H;
    [|discriminate].
  destruct (set_annotation r part None t) as [t1|] eqn:E1; simpl in H;
    [|discriminate].
  injection H as <-. pose proof (bounded_selected _ _ Hok _ Er) as Hr.
  apply set_annotation_Some in E1 as (sk' & _ & ->).
  unfold refs_ok. simpl. rewrite length_insert.
  destruct Hok as [H1 H2 H3 H4 H5]. split; simpl; try assumption.
  - constructor; [|exact H2]. repeat constructor. exact Hr.
  - constructor.
Qed.

Lemma undo_action_refs_ok (t t' : Tool) :
  undo_action t = Some t' → refs_ok t → refs_ok t'.
Proof.
  unfold undo_action. intros H Hok.
  destruct (image t); [|congruence].
  destruct (annotation_history t) as [|a hist] eqn:Eh; [congruence |].
  assert (refs_ok (set_logs hist (a :: redo_stack t) t)) as Hok1.
  { destruct Hok as [H1 H2 H3 H4 H5]. rewrite Eh in H2.
    inversion H2; subst. split; simpl; try assumption.
    constructor; assumption. }
  assert (Forall (λ r, r < length (heap t))%nat (action_refs a)) as Ha.
  { pose proof (bounded_history _ _ Hok) as H2. rewrite Eh in H2.
    inversion H2; assumption. }
  destruct a as [r | r part old new | r part old | sks]; simpl in H.
  - destruct (deref _ r) as [sk|]; simpl in H; [|discriminate].
    destruct (list_remove r (skeletons t)) as [rest|] eqn:Er; simpl in H;
      [|discriminate].
    injection H as <-.
    destruct Hok1 as [H1 H2 H3 H4 H5]. split; simpl in *; try assumption.
    eapply list_remove_Forall; eassumption.
  - eapply set_annotation_refs_ok; eassumption.
  - eapply set_annotation_refs_ok; eassumption.
  - injection H as <-.
    destruct Hok1 as [H1 H2 H3 H4 H5]. split; simpl in *; assumption.
Qed.

Lemma redo_action_refs_ok (t t' : Tool) :
  redo_action t = Some t' → refs_ok t → refs_ok t'.
Proof.
  unfold redo_action. intros H Hok.
  destruct (image t); [|congruence].
  destruct (redo_stack t) as [|a redo] eqn:Eh; [congruence |].
  assert (Forall (λ r, r < length (heap t))%nat (action_refs a)) as Ha.
  { pose proof (bounded_redo _ _ Hok) as H2. rewrite Eh in H2.
    inversion H2; assumption. }
  assert (refs_ok (set_logs (a :: annotation_history t) redo t)) as Hok1.
  { destruct Hok as [H1 H2 H3 H4 H5]. rewrite Eh in H3.
    inversion H3; subst. split; simpl; try assumption.
    constructor; assumption. }
  destruct a as [r | r part old new | r part old | sks]; simpl in H.
  - destruct (deref _ r) as [sk|]; simpl in H; [|discriminate].
    injection H as <-.
    destruct Hok1 as [H1 H2 H3 H4 H5]. split; simpl in *; try assumption.
    apply Forall_app. split; assumption.
  - eapply set_annotation_refs_ok; eassumption.
  - eapply set_annotation_refs_ok; eassumption.
  - injection H as <-.
    destruct Hok1 as [H1 H2 H3 H4 H5]. split; simpl in *;
      first [assumption | constructor].
Qed.

Section FilesInvariant.
Variable label_file_path : string -> string -> string.

Lemma load_line_refs_ok (w h : Z) (t t' : Tool) (line : str) :
  load_line w h (Some t) line = Some t' → refs_ok t → refs_ok t'.
Proof.
  unfold load_line. simpl. intros H Hok.
  destruct (parse_line w h line) as [[[ty ann]|]|]; simpl in H;
    [| congruence | discriminate].
  destruct (get_next_skeleton_id t) as [m|]; simpl in H; [|discriminate].
  injection H as <-. unfold refs_ok. simpl. rewrite length_app. simpl.
  apply (bounded_mono _ (length (heap t) + 1)) in Hok; [|lia].
  destruct Hok as [H1 H2 H3 H4 H5]. split; simpl; try assumption.
  apply Forall_app. split; [exact H1 |]. repeat constructor. lia.
Qed.

Lemma load_lines_refs_ok (w h : Z) (lines : list str) (t t' : Tool) :
  fold_left (load_line w h) lines (Some t) = Some t' →
  refs_ok t → refs_ok t'.
Proof.
  revert t. induction lines as [|line lines IH]; intros t H Hok.
  - simpl in H. congruence.
  - change (fold_left (load_line w h) lines (load_line w h (Some t) line)
            = Some t') in H.
    destruct (load_line w h (Some t) line) as [t1|] eqn:E.
    + eapply IH; [exact H |]. eapply load_line_refs_ok; eassumption.
    + exfalso. clear -H. induction lines as [|l ls IHl]; simpl in H;
        [discriminate | auto].
Qed.

Lemma load_annotations_refs_ok (t t' : Tool) :
  load_annotations label_file_path t = Some t' → refs_ok t → refs_ok t'.
Proof.
  unfold load_annotations. intros H Hok.
  destruct (folder_selected t) as [folder|]; [|congruence].
  destruct (files t !! _) as [text|]; [|congruence].
  destruct (image t) as [[height width]|]; simpl in H; [|discriminate].
  eapply load_lines_refs_ok; [exact H |].
  destruct Hok as [H1 H2 H3 H4 H5]. split; simpl; try assumption.
  constructor.
Qed.

Lemma load_image_refs_ok (path : string) (shape : Z * Z) (t t' : Tool) :
  load_image label_file_path path shape t = Some t' →
  refs_ok t → refs_ok t'.
Proof.
  unfold load_image. intros H Hok.
  eapply load_annotations_refs_ok; [exact H |].
  destruct Hok as [H1 H2 H3 H4 H5]. split; simpl; try assumption;
    constructor.
Qed.

Lemma set_files_same (t : Tool) : set_files (files t) t = t.
Proof. destruct t; reflexivity. Qed.

Lemma save_annotations_frame (t t' : Tool) :
  save_annotations label_file_path t = Some t' →
  ∃ disk, t' = set_files disk t.
Proof.
  unfold save_annotations. intros H.
  destruct (folder_selected t) as [folder|];
    [|exists (files t); rewrite set_files_same; congruence].
  destruct (image t) as [[height width]|];
    [|exists (files t); rewrite set_files_same; congruence].
  destruct (skeletons t).
  - eexists. injection H as <-. reflexivity.
  - destruct (live_skeletons t); simpl in H; [|discriminate].
    eexists. injection H as <-. reflexivity.
Qed.

Lemma set_files_refs_ok (disk : gmap string str) (t : Tool) :
  refs_ok t → refs_ok (set_files disk t).
Proof. intros [H1 H2 H3 H4 H5]. split; simpl; assumption. Qed.

Lemma reset_annotations_refs_ok (t : Tool) :
  refs_ok t → refs_ok (reset_annotations label_file_path t).
Proof.
  unfold reset_annotations. intros Hok.
  destruct (image t); [|exact Hok].
  assert (∀ t1, refs_ok t1 →
            refs_ok match auto_save t, folder_selected t with
                    | true, Some folder =>
                        set_files (delete (label_file_path folder
                                             (image_file_path t)) (files t))
                          t1
                    | _, _ => t1
                    end) as Hf.
  { intros t1 H1. destruct (auto_save t); [|exact H1].
    destruct (folder_selected t); [|exact H1].
    destruct H1; split; simpl; assumption. }
  apply Hf. destruct Hok as [H1 H2 H3 H4 H5]. split; simpl;
    try assumption; try constructor; try assumption.
  intros ? [=].
Qed.

Lemma step_refs_ok (e : Event) (t t' : Tool) :
  step label_file_path e t = Some t' → refs_ok t → refs_ok t'.
Proof.
  destruct e; simpl; intros H Hok.
  - eapply load_image_refs_ok; eassumption.
  - unfold load_other_image in H. destruct (image t); [|congruence].
    destruct (auto_save t).
    + destruct (save_annotations label_file_path t) as [t1|] eqn:E;
        simpl in H; [|discriminate].
      apply save_annotations_frame in E as [disk ->].
      eapply load_image_refs_ok; [exact H |].
      apply set_files_refs_ok. exact Hok.
    + simpl in H. eapply load_image_refs_ok; eassumption.
  - injection H as <-. destruct Hok; split; simpl; assumption.
  - injection H as <-. destruct Hok; split; simpl; assumption.
  - unfold set_skeleton_type in H. destruct (image t); [|congruence].
    eapply add_new_skeleton_refs_ok; [exact H |].
    destruct Hok; split; simpl; assumption.
  - eapply mousePressEvent_refs_ok; eassumption.
  - eapply mouseMoveEvent_refs_ok; eassumption.
  - injection H as <-. destruct Hok; split; simpl; assumption.
  - injection H as <-. destruct Hok; split; simpl; assumption.
  - injection H as <-. destruct Hok; split; simpl; assumption.
  - eapply delete_key_refs_ok; eassumption.
  - injection H as <-. apply reset_annotations_refs_ok. exact Hok.
  - eapply undo_action_refs_ok; eassumption.
  - eapply redo_action_refs_ok; eassumption.
  - apply save_annotations_frame in H as [disk ->].
    apply set_files_refs_ok. exact Hok.
Qed.

Lemma Reachable_refs_ok (t : Tool) :
  Reachable label_file_path t → refs_ok t.
Proof.
  induction 1 as [disk | e t t' _ IH _ Hstep].
  - split; simpl; try constructor; intros ? [=].
  - eapply step_refs_ok; eassumption.
Qed.
End FilesInvariant.

(** A run of events from a reachable state ends in a reachable state. *)
Lemma run_Reachable (label_file_path : string → string → string)
    (es : list Event) (t t' : Tool) :
  Reachable label_file_path t → Forall event_ok es →
  run label_file_path es t = Some t' → Reachable label_file_path t'.
Proof.
  intros Hr Hes. revert t Hr. induction Hes as [|e es He _ IH];
    intros t Hr H.
  - injection H as <-. exact Hr.
  - cbn [run] in H.
    destruct (step label_file_path e t) as [t1|] eqn:E; [|discriminate].
    cbn [mbind option_bind] in H. eapply IH; [|exact H].
    eapply Reachable_step; eassumption.
Qed.

Lemma live_skeletons_app (t : Tool) (sks : list Skeleton) (obj : Skeleton)
    (l : list nat) :
  mapM (λ r, heap t !! r) l = Some sks →
  mapM (λ r, (heap t ++ [obj]) !! r) (l ++ [length (heap t)])
  = Some (sks ++ [obj]).
Proof.
  intros H. apply mapM_Some in H. apply mapM_Some.
  apply Forall2_app.
  - eapply Forall2_impl; [exact H |]. simpl. intros r sk Hr.
    rewrite lookup_app_l; [exact Hr |]. eapply lookup_lt_Some. exact Hr.
  - repeat constructor. apply list_lookup_middle. reflexivity.
Qed.

(** C3: in every reachable state [add_new_skeleton] gives the new skeleton
    the smallest positive integer that is the id of no live skeleton; and
    when skeleton 2 is removed while 1 and 3 stay, the next skeleton gets
    id 2. *)
Theorem add_new_skeleton_smallest_free_id
    (label_file_path : string → string → string) (t : Tool) :
  Reachable label_file_path t →
  (∃ sks m,
     live_skeletons t = Some sks
     ∧ get_next_skeleton_id t = Some m
     ∧ smallest_unused (skeleton_id <$> sks) m
     ∧ (∀ height width, image t = Some (height, width) →
        ∃ t' new,
          add_new_skeleton t = Some t'
          ∧ live_skeletons t' = Some (sks ++ [new])
          ∧ skeleton_id new = m))
  ∧ (∃ t2 t3 sks,
       undo_action three_skeletons = Some t2
       ∧ (skeleton_id <$> sks) = [1; 3]
       ∧ live_skeletons t2 = Some sks
       ∧ get_next_skeleton_id t2 = Some 2
       ∧ add_new_skeleton t2 = Some t3
       ∧ (skeleton_id <$> heap t3 !! 3%nat) = Some 2).
Proof.
  intros Hreach. split.
  - apply Reachable_refs_ok in Hreach.
    destruct (refs_ok_live t (bounded_skeletons _ _ Hreach)) as [sks Hsks].
    destruct (get_next_skeleton_id_spec t sks Hsks) as (m & Hm & Hsm).
    exists sks, m. repeat split; try assumption; try apply Hsm.
    intros height width Himg. unfold add_new_skeleton.
    rewrite Himg, Hm. simpl. eexists _, _. split; [reflexivity |].
    split.
    + unfold live_skeletons, deref. simpl.
      apply live_skeletons_app. exact Hsks.
    + reflexivity.
  - vm_compute. eexists _, _, _. repeat split; reflexivity.
Qed.

Lemma add_new_skeleton_smallest_free_id_witness :
  ∃ t sks m,
    run (λ folder image, folder)
      [SelectImageFolder "a.png" (480, 640); SetSkeletonType LMG;
       SetSkeletonType Rifle; SetSkeletonType LMG; Undo; Undo]
      (init_tool ∅) = Some t
    ∧ live_skeletons t = Some sks
    ∧ (skeleton_id <$> sks) = [1]
    ∧ deleted_skeleton_ids t = {[3; 2]}
    ∧ get_next_skeleton_id t = Some m
    ∧ m = 2
    ∧ smallest_unused (skeleton_id <$> sks) m.
Proof.
  destruct (run (λ folder image : string, folder)
              [SelectImageFolder "a.png" (480, 640); SetSkeletonType LMG;
               SetSkeletonType Rifle; SetSkeletonType LMG; Undo; Undo]
              (init_tool ∅)) as [t|] eqn:E; [|vm_compute in E; discriminate].
  destruct (add_new_skeleton_smallest_free_id (λ folder image, folder) t)
    as [(sks & m & H1 & H2 & H3 & _) _].
  { eapply run_Reachable; [apply Reachable_init | | exact E].
    repeat constructor; cbn; lia. }
  pose proof E as E'. vm_compute in E'. injection E' as <-.
  pose proof H1 as H1'. vm_compute in H1'. injection H1' as <-.
  pose proof H2 as H2'. vm_compute in H2'. injection H2' as <-.
  eexists _, _, 2. split; [reflexivity |]. split; [exact H1 |].
  split; [reflexivity |]. split; [vm_compute; reflexivity |].
  split; [exact H2 |]. split; [reflexivity | exact H3].
Defined.

Lemma dict_lookup_set_eq {V} (k : string) (v : V) (d : dict V) :
  dict_lookup k (dict_set k v d) = Some v.
Proof.
  induction d as [|[k' v'] d IH]; simpl.
  - rewrite String.eqb_refl. reflexivity.
  - destruct (String.eqb k k') eqn:E; simpl; rewrite E; [reflexivity | exact IH].
Qed.

(** What a drag move does to a state in which a key point is being
    dragged. *)
Lemma mouseMoveEvent_dragging (ex ey : Z) (t : Tool) (r : nat)
    (part : string) (height width : Z) (sk : Skeleton)
    (old : option Coords) :
  dragging_keypoint (image_label t) = true →
  label_selected_keypoint (image_label t) = Some part →
  label_selected_skeleton (image_label t) = Some r →
  image t = Some (height, width) →
  heap t !! r = Some sk →
  dict_lookup part (annotations sk) = Some old →
  let x := Z.max 0 (Z.min (py_trunc (to_image_space t ex ey).1) (width - 1)) in
  let y := Z.max 0 (Z.min (py_trunc (to_image_space t ex ey).2) (height - 1)) in
  mouseMoveEvent ex ey t
  = Some (set_logs
            (move_keypoint r part old (inject_Z x, inject_Z y)
               :: annotation_history t) []
            (set_heap
               (<[r := mkSkeleton (skeleton_id sk)
                         (dict_set part (Some (inject_Z x, inject_Z y))
                            (annotations sk))
                         (skeleton_type sk)]> (heap t)) t)).
Proof.
  intros Hd Hp Hr Hi Hh Ho. unfold mouseMoveEvent.
  rewrite Hd, Hp, Hr. destruct (to_image_space t ex ey) as [xi yi].
  rewrite Hi. simpl. unfold deref. rewrite Hh. simpl. rewrite Ho. simpl.
  unfold set_annotation, deref. rewrite Hh. simpl. reflexivity.
Qed.

(** C5: a drag move stores a position with [0 <= x <= width - 1] and
    [0 <= y <= height - 1], whatever the pointer position; on a 640 by 480
    image the image-space point (-5, 10000) is stored as (0, 479). *)
Theorem mouseMoveEvent_clamps_to_image (ex ey : Z) (t : Tool) (r : nat)
    (part : string) (height width : Z) (sk : Skeleton)
    (old : option Coords) :
  0 < height → 0 < width →
  dragging_keypoint (image_label t) = true →
  label_selected_keypoint (image_label t) = Some part →
  label_selected_skeleton (image_label t) = Some r →
  image t = Some (height, width) →
  heap t !! r = Some sk →
  dict_lookup part (annotations sk) = Some old →
  (∃ t' sk' x y,
     mouseMoveEvent ex ey t = Some t'
     ∧ heap t' !! r = Some sk'
     ∧ dict_lookup part (annotations sk')
       = Some (Some (inject_Z x, inject_Z y))
     ∧ 0 ≤ x ≤ width - 1 ∧ 0 ≤ y ≤ height - 1)
  ∧ (to_image_space dragging_cover (-5) 10000
       = (inject_Z (-5) / 1, inject_Z 10000 / 1)%Q
     ∧ ∃ t' sk',
         mouseMoveEvent (-5) 10000 dragging_cover = Some t'
         ∧ heap t' !! 0%nat = Some sk'
         ∧ dict_lookup "cover" (annotations sk')
           = Some (Some (inject_Z 0, inject_Z 479))).
Proof.
  intros Hh Hw Hd Hp Hr Hi Hs Ho. split.
  - rewrite (mouseMoveEvent_dragging ex ey t r part height width sk old)
      by assumption.
    eexists _, _, _, _. split; [reflexivity |]. simpl. split.
    + apply list_lookup_insert_eq. eapply lookup_lt_Some. exact Hs.
    + simpl. split; [apply dict_lookup_set_eq |]. lia.
  - split; [reflexivity |]. eexists _, _. vm_compute.
    repeat split; reflexivity.
Qed.

Lemma mouseMoveEvent_clamps_to_image_witness :
  ∃ t' sk' x y,
    mouseMoveEvent 7 (-3) dragging_cover = Some t'
    ∧ heap t' !! 0%nat = Some sk'
    ∧ dict_lookup "cover" (annotations sk')
      = Some (Some (inject_Z x, inject_Z y))
    ∧ 0 ≤ x ≤ 640 - 1 ∧ 0 ≤ y ≤ 480 - 1.
Proof.
  apply (mouseMoveEvent_clamps_to_image 7 (-3) dragging_cover 0 "cover"
           480 640 (mkSkeleton 1 (default_positions LMG 320 240) LMG)
           (at_ 320 240));
    first [lia | reflexivity].
Defined.

(** [int(q)] rounds toward zero: it is the integer nearest to [q] among
    those between zero and [q]. *)
Lemma py_trunc_toward_zero (q : Q) :
  ((0 <= q)%Q → (inject_Z (py_trunc q) <= q)%Q
                ∧ (q < inject_Z (py_trunc q + 1))%Q ∧ 0 ≤ py_trunc q)
  ∧ ((q <= 0)%Q → (q <= inject_Z (py_trunc q))%Q
                  ∧ (inject_Z (py_trunc q - 1) < q)%Q ∧ py_trunc q ≤ 0).
Proof.
  destruct q as [n d]. unfold py_trunc, Qle, Qlt. simpl.
  rewrite !Z.mul_1_r.
  pose proof (Z.quot_rem' n (Z.pos d)) as Hqr.
  split; intros Hn.
  - pose proof (Z.rem_bound_pos n (Z.pos d) ltac:(lia) ltac:(lia)).
    assert (0 ≤ n ÷ Z.pos d) by (apply Z.quot_pos; lia).
    nia.
  - pose proof (Z.rem_bound_pos_neg n (Z.pos d) ltac:(lia) ltac:(lia)) as Hb.
    assert (n ÷ Z.pos d ≤ 0).
    { destruct (Z.eq_dec n 0) as [-> | Hne].
      - rewrite Z.quot_0_l; lia.
      - rewrite <- (Z.opp_involutive n), Z.quot_opp_l by lia.
        assert (0 ≤ (- n) ÷ Z.pos d) by (apply Z.quot_pos; lia). lia. }
    nia.
Qed.

(** C10: a drag move stores the image-space point (the [float] quotient
    of [to_image_space]) truncated toward zero and then clamped, so both
    stored coordinates are integers; decoding an annotation line can give
    coordinates that are not.  After one step of zooming in, the pointer
    at (33, 33) is the image-space point 29.999999999999996 on each axis,
    and 29 is stored. *)
Theorem mouseMoveEvent_stores_integers (ex ey : Z) (t : Tool) (r : nat)
    (part : string) (height width : Z) (sk : Skeleton)
    (old : option Coords) :
  dragging_keypoint (image_label t) = true →
  label_selected_keypoint (image_label t) = Some part →
  label_selected_skeleton (image_label t) = Some r →
  image t = Some (height, width) →
  heap t !! r = Some sk →
  dict_lookup part (annotations sk) = Some old →
  (∃ t' sk',
     mouseMoveEvent ex ey t = Some t'
     ∧ heap t' !! r = Some sk'
     ∧ dict_lookup part (annotations sk')
       = Some (Some
           (inject_Z (Z.max 0 (Z.min (py_trunc (to_image_space t ex ey).1)
                                 (width - 1))),
            inject_Z (Z.max 0 (Z.min (py_trunc (to_image_space t ex ey).2)
                                 (height - 1))))))
  ∧ (∀ q, ((0 <= q)%Q → (inject_Z (py_trunc q) <= q)%Q
                         ∧ (q < inject_Z (py_trunc q + 1))%Q)
          ∧ ((q <= 0)%Q → (q <= inject_Z (py_trunc q))%Q
                          ∧ (inject_Z (py_trunc q - 1) < q)%Q))
  ∧ (∃ x y rest,
       parse_line 3 3 (lit "0 0.5 0.5 0 0 0.5 0.25")
       = Some (Some (LMG, ("butt"%string, Some (x, y)) :: rest))
       ∧ (x == 3 # 2)%Q ∧ (y == 3 # 4)%Q
       ∧ (∀ z, ¬ (x == inject_Z z)%Q) ∧ (∀ z, ¬ (y == inject_Z z)%Q))
  ∧ (to_image_space (wheelEvent true dragging_cover) 33 33
       = ((8444249301319679 # 281474976710656)%Q,
          (8444249301319679 # 281474976710656)%Q)
     ∧ ∃ t' sk',
         mouseMoveEvent 33 33 (wheelEvent true dragging_cover) = Some t'
         ∧ heap t' !! 0%nat = Some sk'
         ∧ dict_lookup "cover" (annotations sk')
           = Some (Some (inject_Z 29, inject_Z 29))).
Proof.
  intros Hd Hp Hr Hi Hs Ho. split; [|split; [|split]].
  - rewrite (mouseMoveEvent_dragging ex ey t r part height width sk old)
      by assumption.
    eexists _, _. split; [reflexivity |]. simpl. split.
    + apply list_lookup_insert_eq. eapply lookup_lt_Some. exact Hs.
    + simpl. apply dict_lookup_set_eq.
  - intros q. destruct (py_trunc_toward_zero q) as [H1 H2].
    split; intros Hq; [apply H1 in Hq | apply H2 in Hq]; tauto.
  - eexists _, _, _. split; [vm_compute; reflexivity |].
    split; [reflexivity |]. split; [reflexivity |].
    split; intros z; unfold Qeq; simpl; lia.
  - split; [vm_compute; reflexivity |]. eexists _, _. vm_compute.
    repeat split; reflexivity.
Qed.

Lemma mouseMoveEvent_stores_integers_witness :
  ∃ t' sk',
    mouseMoveEvent 33 33 (wheelEvent true dragging_cover) = Some t'
    ∧ heap t' !! 0%nat = Some sk'
    ∧ dict_lookup "cover" (annotations sk')
      = Some (Some (inject_Z 29, inject_Z 29)).
Proof.
  destruct (mouseMoveEvent_stores_integers 33 33
              (wheelEvent true dragging_cover) 0 "cover" 480 640
              (mkSkeleton 1 (default_positions LMG 320 240) LMG)
              (at_ 320 240) eq_refl eq_refl eq_refl eq_refl eq_refl eq_refl)
    as [(t' & sk' & H1 & H2 & H3) _].
  exists t', sk'. split; [exact H1 |]. split; [exact H2 |].
  rewrite H3. vm_compute. reflexivity.
Defined.

(** C9: undoing a [reset] record puts the recorded list back as the
    skeleton list and leaves the set of deleted ids empty, whatever that
    set held when the reset was made. *)
Theorem undo_reset_empties_deleted_ids
    (label_file_path : string → string → string) (t : Tool)
    (shape : Z * Z) (sks : list nat) (history : list Action) :
  image t = Some shape →
  (annotation_history t = reset sks :: history →
   ∃ t', undo_action t = Some t'
         ∧ skeletons t' = sks
         ∧ deleted_skeleton_ids t' = ∅
         ∧ annotation_history t' = history
         ∧ redo_stack t' = reset sks :: redo_stack t)
  ∧ (∃ t', undo_action (reset_annotations label_file_path t) = Some t'
           ∧ skeletons t' = skeletons t
           ∧ heap t' = heap t
           ∧ deleted_skeleton_ids t' = ∅)
  ∧ (deleted_skeleton_ids one_deleted = {[1]}
     ∧ ∃ t', undo_action (reset_annotations label_file_path one_deleted)
             = Some t'
             ∧ deleted_skeleton_ids t' = ∅).
Proof.
  intros Hi. split; [|split].
  - intros Hh. unfold undo_action. rewrite Hi, Hh. simpl.
    eexists. split; [reflexivity |]. simpl. auto.
  - unfold reset_annotations. rewrite Hi.
    destruct (auto_save t), (folder_selected t);
      (eexists; unfold undo_action; simpl; rewrite Hi; simpl;
       split; [reflexivity | simpl; auto]).
  - split; [reflexivity |].
    eexists. split; reflexivity.
Qed.

Lemma undo_reset_empties_deleted_ids_witness :
  ∃ t', undo_action (reset_annotations (λ a b, a) one_deleted) = Some t'
        ∧ skeletons t' = skeletons one_deleted
        ∧ heap t' = heap one_deleted
        ∧ deleted_skeleton_ids t' = ∅.
Proof.
  apply (undo_reset_empties_deleted_ids (λ a b, a) one_deleted (480, 640)
           [] []).
  reflexivity.
Defined.

(** ** The square root and the distance *)

Lemma pow2_le (a b : Z) : a ≤ b → (2 ^ a <= 2 ^ b)%Q.
Proof. intros H. apply Qpower_le_compat_l; [exact H | discriminate]. Qed.

Lemma pow2_mult (a b : Z) : (2 ^ a * 2 ^ b == 2 ^ (a + b))%Q.
Proof. symmetry. apply Qpower_plus. discriminate. Qed.

Lemma floor_sqrt_bounds (t : Q) :
  (0 <= t)%Q →
  0 ≤ Z.sqrt (Qfloor t)
  ∧ (inject_Z (Z.sqrt (Qfloor t)) * inject_Z (Z.sqrt (Qfloor t)) <= t)%Q
  ∧ (t < (inject_Z (Z.sqrt (Qfloor t)) + 1)
         * (inject_Z (Z.sqrt (Qfloor t)) + 1))%Q.
Proof.
  intros Ht.
  assert (0 ≤ Qfloor t) as Hf.
  { change 0 with (Qfloor 0). apply Qfloor_resp_le. exact Ht. }
  pose proof (Z.sqrt_spec (Qfloor t) Hf) as [H1 H2].
  pose proof (Qfloor_le t) as Hl. pose proof (Qlt_floor t) as Hu.
  set (k := Z.sqrt (Qfloor t)) in *.
  split; [apply Z.sqrt_nonneg |]. split.
  - eapply Qle_trans; [|exact Hl]. rewrite <- inject_Z_mult, <- Zle_Qle.
    exact H1.
  - eapply Qlt_le_trans; [exact Hu |].
    change 1%Q with (inject_Z 1).
    rewrite <- !inject_Z_plus, <- inject_Z_mult, <- Zle_Qle. lia.
Qed.

(** [nearest_root t] is [k] or [k + 1] for the integer square root [k]. *)
Lemma nearest_root_cases (t : Q) :
  let k := Z.sqrt (Qfloor t) in
  let h := (inject_Z k + (1 # 2))%Q in
  (nearest_root t = k ∧ (t <= h * h)%Q)
  ∨ (nearest_root t = k + 1 ∧ (h * h <= t)%Q ∧ (Z.even k = true → (h * h < t)%Q)).
Proof.
  intros k h. unfold nearest_root. fold k. fold h.
  destruct (t ?= h * h)%Q eqn:E.
  - apply Qeq_alt in E. destruct (Z.even k) eqn:Ev.
    + left. split; [reflexivity | rewrite E; apply Qle_refl].
    + right. split; [reflexivity |]. split; [rewrite E; apply Qle_refl |].
      discriminate.
  - apply Qlt_alt in E. left. split; [reflexivity | apply Qlt_le_weak; exact E].
  - apply Qgt_alt in E. right. split; [reflexivity |].
    split; [apply Qlt_le_weak; exact E | intros _; exact E].
Qed.

Lemma nearest_root_le (t : Q) (M : Z) :
  (0 <= t)%Q → 0 ≤ M → Z.even M = true →
  nearest_root t ≤ M
  ↔ (t <= (inject_Z M + (1 # 2)) * (inject_Z M + (1 # 2)))%Q.
Proof.
  intros Ht HM Hev.
  destruct (floor_sqrt_bounds t Ht) as (Hk0 & Hk1 & Hk2).
  pose proof (nearest_root_cases t) as Hc. cbv zeta in Hc.
  set (k := Z.sqrt (Qfloor t)) in *.
  assert (0 <= inject_Z k)%Q as HK0
    by (change 0%Q with (inject_Z 0); rewrite <- Zle_Qle; exact Hk0).
  assert (0 <= inject_Z M)%Q as HM0
    by (change 0%Q with (inject_Z 0); rewrite <- Zle_Qle; exact HM).
  destruct (Z.lt_trichotomy k M) as [Hlt | [Heq | Hgt]].
  - assert (inject_Z k + 1 <= inject_Z M)%Q as Hq.
    { change 1%Q with (inject_Z 1). rewrite <- inject_Z_plus, <- Zle_Qle.
      lia. }
    split; [intros _; nra |]. intros _.
    destruct Hc as [[-> _] | [-> _]]; lia.
  - subst M. destruct Hc as [[-> Hle] | (-> & Hge & Hstrict)].
    + split; [intros _; exact Hle | intros _; lia].
    + specialize (Hstrict Hev). split; [lia | intros Hle; lra].
  - assert (inject_Z M + 1 <= inject_Z k)%Q as Hq.
    { change 1%Q with (inject_Z 1). rewrite <- inject_Z_plus, <- Zle_Qle.
      lia. }
    split; [|intros Hle; nra].
    destruct Hc as [[-> _] | [-> _]]; lia.
Qed.

Lemma nearest_root_ge (t : Q) (K : Z) :
  0 ≤ K → (inject_Z K * inject_Z K <= t)%Q → K ≤ nearest_root t.
Proof.
  intros HK Ht.
  assert (K * K ≤ Qfloor t) as Hf.
  { rewrite <- (Qfloor_Z (K * K)). apply Qfloor_resp_le.
    rewrite inject_Z_mult. exact Ht. }
  assert (K ≤ Z.sqrt (Qfloor t)) as Hs.
  { rewrite <- (Z.sqrt_square K) by exact HK. apply Z.sqrt_le_mono.
    exact Hf. }
  pose proof (nearest_root_cases t) as Hc. cbv zeta in Hc.
  destruct Hc as [[-> _] | [-> _]]; lia.
Qed.

Lemma fsqrt_value (s : Q) :
  (0 < s)%Q →
  (fsqrt s
   == inject_Z (nearest_root (s / (ulp (ilog2 s / 2) * ulp (ilog2 s / 2))))
      * ulp (ilog2 s / 2))%Q.
Proof.
  intros Hs. unfold fsqrt.
  destruct (Qle_bool s 0) eqn:E; [apply Qle_bool_iff in E; lra |].
  apply Qred_correct.
Qed.

(** The exponent of the square root. *)
Lemma ilog2_half (s : Q) :
  (0 < s)%Q →
  (2 ^ (2 * (ilog2 s / 2)) <= s)%Q ∧ (s < 2 ^ (2 * (ilog2 s / 2) + 2))%Q.
Proof.
  intros Hs. destruct (ilog2_spec s Hs) as [H1 H2].
  pose proof (Z.div_mod (ilog2 s) 2 ltac:(lia)) as Hdm.
  pose proof (Z.mod_pos_bound (ilog2 s) 2 ltac:(lia)) as Hb.
  split.
  - eapply Qle_trans; [apply pow2_le | exact H1]. lia.
  - eapply Qlt_le_trans; [exact H2 | apply pow2_le]. lia.
Qed.

Lemma ulp_square (e : Z) :
  (ulp e * ulp e == 2 ^ (2 * Z.max e (-1022) - 104))%Q.
Proof. unfold ulp. rewrite pow2_mult. f_equiv. lia. Qed.

(** The rounded square root is at most 10 exactly when the number is at
    most the square of [hit_radius]. *)
Lemma fsqrt_le_10 (s : Q) :
  (0 <= s)%Q → (fsqrt s <= 10)%Q ↔ (s <= hit_radius * hit_radius)%Q.
Proof.
  intros Hs. destruct (Qlt_le_dec 0 s) as [Hpos | Hz].
  2: { unfold fsqrt.
       assert (Qle_bool s 0 = true) as -> by (apply Qle_bool_iff; exact Hz).
       split; intros _; [|discriminate].
       eapply Qle_trans; [exact Hz | discriminate]. }
  rewrite (fsqrt_value s Hpos).
  destruct (ilog2_half s Hpos) as [Hlo Hhi].
  pose proof (ulp_square (ilog2 s / 2)) as Hsq.
  pose proof (ulp_pos (ilog2 s / 2)) as Hu.
  set (e := ilog2 s / 2) in *.
  assert (0 < ulp e * ulp e)%Q as Huu by (apply Qmult_lt_0_compat; exact Hu).
  set (t := (s / (ulp e * ulp e))%Q).
  assert (0 <= t)%Q as Ht by (apply Qle_shift_div_l; lra).
  destruct (Z_lt_le_dec e 3) as [Hsmall | Hge].
  - (* the root is below 8 *)
    assert (hit_radius * hit_radius >= 64)%Q as HT by discriminate.
    assert (2 ^ (2 * e + 2) <= 2 ^ 6)%Q as H6 by (apply pow2_le; lia).
    change (2 ^ 6)%Q with 64%Q in H6.
    split; [intros _; lra | intros _].
    assert (nearest_root t ≤ 2 ^ 53) as Hm.
    { apply nearest_root_le; [exact Ht | lia | reflexivity |].
      assert (t <= inject_Z (2 ^ 53) * inject_Z (2 ^ 53))%Q as Hle.
      { apply Qle_shift_div_r; [exact Huu |]. rewrite Hsq.
        rewrite <- inject_Z_mult, <- Z.pow_add_r by lia.
        rewrite <- pow2_inject by lia. rewrite pow2_mult.
        eapply Qle_trans; [apply Qlt_le_weak; exact Hhi | apply pow2_le].
        lia. }
      assert (0 <= inject_Z (2 ^ 53))%Q by discriminate. nra. }
    assert (inject_Z (nearest_root t) * ulp e <= inject_Z (2 ^ 53) * ulp e)%Q
      as Hmu.
    { apply Qmult_le_compat_r; [rewrite <- Zle_Qle; exact Hm | lra]. }
    assert (inject_Z (2 ^ 53) * ulp e <= 8)%Q as H8.
    { unfold ulp. rewrite <- pow2_inject by lia. rewrite pow2_mult.
      change 8%Q with (2 ^ 3)%Q. apply pow2_le. lia. }
    lra.
  - destruct (Z.eq_dec e 3) as [He | Hne].
    + (* the binade of 10 *)
      clear Hlo Hhi. unfold t. clear t Ht.
      revert Hsq Hu Huu. rewrite He. unfold ulp.
      change (2 ^ (Z.max 3 (-1022) - 52))%Q with (1 # 562949953421312)%Q.
      intros _ _ _.
      set (m := nearest_root
                  (s / ((1 # 562949953421312) * (1 # 562949953421312)))).
      assert ((inject_Z m * (1 # 562949953421312) <= 10)%Q
              ↔ m ≤ 5629499534213120) as ->.
      { unfold Qle, Qmult, inject_Z. cbn [Qnum Qden]. lia. }
      unfold m. rewrite nearest_root_le; [| |lia | reflexivity].
      * assert (s / ((1 # 562949953421312) * (1 # 562949953421312))
                == s * (316912650057057350374175801344 # 1))%Q as ->
          by field.
        unfold hit_radius.
        change (inject_Z 5629499534213120) with (5629499534213120 # 1)%Q.
        split; intros H; lra.
      * apply Qle_shift_div_l; [reflexivity | lra].
    + (* the root is at least 16 *)
      assert (hit_radius * hit_radius < 256)%Q as HT by reflexivity.
      assert (2 ^ 8 <= 2 ^ (2 * e))%Q as H8 by (apply pow2_le; lia).
      change (2 ^ 8)%Q with 256%Q in H8.
      split; [|intros H; lra]. intros H. exfalso.
      assert (2 ^ 52 ≤ nearest_root t) as Hm.
      { apply nearest_root_ge; [lia |].
        apply Qle_shift_div_l; [exact Huu |]. rewrite Hsq.
        rewrite <- inject_Z_mult, <- Z.pow_add_r by lia.
        rewrite <- pow2_inject by lia. rewrite pow2_mult.
        eapply Qle_trans; [apply pow2_le | exact Hlo]. lia. }
      assert (inject_Z (2 ^ 52) * ulp e <= inject_Z (nearest_root t) * ulp e)%Q
        as Hmu.
      { apply Qmult_le_compat_r; [rewrite <- Zle_Qle; exact Hm | lra]. }
      assert (16 <= inject_Z (2 ^ 52) * ulp e)%Q as H16.
      { unfold ulp. rewrite <- pow2_inject by lia. rewrite pow2_mult.
        change 16%Q with (2 ^ 4)%Q. apply pow2_le. lia. }
      lra.
Qed.

(** [np.hypot(dx, dy) <= 10] in terms of the exact distance: the sum of
    the squares is at most the square of [10 + 2 ^ -50]. *)
Lemma hypot_le_10 (dx dy : Q) :
  (hypot dx dy <= 10)%Q
  ↔ (dx * dx + dy * dy <= hit_radius * hit_radius)%Q.
Proof. unfold hypot. apply fsqrt_le_10. nra. Qed.

Lemma hit_keypoint_Some (x y : Q) (r : nat) (items : dict (option Coords))
    (part : string) :
  hit_keypoint x y items = Some part →
  ∃ c, first_hit x y ((λ '(p, c), (r, p, c)) <$> items) (r, part, c).
Proof.
  induction items as [|[p c] items IH]; intros H; [discriminate |].
  simpl in H. destruct c as [c|].
  - destruct (within_tolerance x y c) eqn:E.
    + injection H as <-. exists (Some c), []. eexists. rewrite fmap_cons.
      split; [reflexivity |]. split; [exact E | constructor].
    + destruct (IH H) as (c' & before & after & H1 & H2 & H3).
      exists c', ((r, p, Some c) :: before), after. rewrite fmap_cons, H1.
      repeat split; [exact H2 |]. constructor; [exact E | exact H3].
  - destruct (IH H) as (c' & before & after & H1 & H2 & H3).
    exists c', ((r, p, None) :: before), after. rewrite fmap_cons, H1.
    repeat split; [exact H2 |]. constructor; [reflexivity | exact H3].
Qed.

Lemma hit_keypoint_None (x y : Q) (r : nat) (items : dict (option Coords)) :
  hit_keypoint x y items = None →
  Forall (λ c, is_hit x y c = false) ((λ '(p, c), (r, p, c)) <$> items).
Proof.
  induction items as [|[p c] items IH]; intros H; [constructor |].
  simpl in H. rewrite fmap_cons. destruct c as [c|].
  - destruct (within_tolerance x y c) eqn:E; [discriminate |].
    constructor; [exact E | exact (IH H)].
  - constructor; [reflexivity | exact (IH H)].
Qed.

Lemma candidates_cons (r : nat) (refs : list nat) (sk : Skeleton)
    (sks : list Skeleton) :
  candidates (r :: refs) (sk :: sks)
  = ((λ '(p, c), (r, p, c)) <$> annotations sk) ++ candidates refs sks.
Proof. reflexivity. Qed.

(** The two loops of the hit test find the first hit of the candidates,
    or nothing when there is none. *)
Lemma hit_test_first (t : Tool) (x y : Q) (refs : list nat)
    (sks : list Skeleton) :
  mapM (deref t) refs = Some sks →
  ∃ res, hit_test t x y refs = Some res
    ∧ match res with
      | Some (r, part) =>
          ∃ c, first_hit x y (candidates refs sks) (r, part, c)
      | None => Forall (λ c, is_hit x y c = false) (candidates refs sks)
      end.
Proof.
  revert sks. induction refs as [|r refs IH]; intros sks H.
  - simpl in H. injection H as <-. exists None. split; [reflexivity |].
    constructor.
  - apply mapM_Some in H. inversion H as [|? sk ? sks' Hr Hrest]; subst.
    apply mapM_Some in Hrest. destruct (IH _ Hrest) as (res & Hres & Hspec).
    simpl. rewrite Hr. simpl. rewrite candidates_cons.
    destruct (hit_keypoint x y (annotations sk)) as [part|] eqn:E.
    + exists (Some (r, part)). split; [reflexivity |].
      destruct (hit_keypoint_Some x y r _ _ E)
        as (c & before & after & H1 & H2 & H3).
      exists c, before, (after ++ candidates refs sks').
      rewrite H1, <- app_assoc. simpl. auto.
    + exists res. split; [exact Hres |].
      pose proof (hit_keypoint_None x y r _ E) as Hn.
      destruct res as [[r' part]|].
      * destruct Hspec as (c & before & after & H1 & H2 & H3).
        exists c, (((λ '(p, c), (r, p, c)) <$> annotations sk) ++ before),
          after.
        rewrite H1, <- app_assoc. repeat split; [exact H2 |].
        apply Forall_app. split; assumption.
      * apply Forall_app. split; assumption.
Qed.

(** The first hit of a list is unique. *)
Lemma first_hit_unique (x y : Q) (cands : list (nat * string * option Coords))
    (a b : nat * string * option Coords) :
  first_hit x y cands a → first_hit x y cands b → a = b.
Proof.
  intros (b1 & a1 & E1 & Ha & F1) (b2 & a2 & E2 & Hb & F2). subst cands.
  revert b2 E2 F2.
  induction b1 as [|c b1 IH]; intros b2 E2 F2.
  - destruct b2 as [|c2 b2]; simpl in E2.
    + congruence.
    + injection E2 as -> _. inversion F2; subst. congruence.
  - destruct b2 as [|c2 b2]; simpl in E2.
    + injection E2 as -> _. inversion F1; subst. congruence.
    + injection E2 as -> E2. inversion F1; inversion F2; subst.
      eapply IH; eauto.
Qed.

Lemma mousePressEvent_heap (ex ey : Z) (t t' : Tool) :
  mousePressEvent ex ey t = Some t' →
  heap t' = heap t ∧ skeletons t' = skeletons t ∧ image t' = image t
  ∧ zoom_level t' = zoom_level t ∧ offset_x t' = offset_x t
  ∧ offset_y t' = offset_y t.
Proof.
  unfold mousePressEvent. intros H.
  destruct (image t) eqn:Ei; [|injection H as <-; repeat split; exact Ei].
  destruct (to_image_space t ex ey) as [x y].
  destruct (hit_test t x y (skeletons t)) as [[[r part]|]|]; simpl in H;
    [| |discriminate]; injection H as <-; repeat split; exact Ei.
Qed.

Lemma hit_test_heap (t t' : Tool) (x y : Q) (refs : list nat) :
  heap t' = heap t → hit_test t' x y refs = hit_test t x y refs.
Proof.
  intros Hh. induction refs as [|r refs IH]; simpl; [reflexivity |].
  unfold deref. rewrite Hh, IH. reflexivity.
Qed.

(** C6: a click is taken to image space and selects the first present key
    point, in skeleton order and then part order, that lies within 10
    pixels; a nearer or identically placed key point that comes later is
    not selected, and clicking again at the same place selects the same
    key point.  The distance is the one the tool computes in [float]
    arithmetic, [np.hypot] of the two rounded differences: it is at most
    10 exactly when the sum of their squares is at most the square of
    [10 + 2 ^ -50].  After one step of zooming in, the click at (352, 275)
    is the image-space point (320, 249.99999999999997): the trigger at
    (320, 260) is farther than 10 and the cover, which comes after it, is
    selected. *)
Theorem mousePressEvent_first_within_tolerance (ex ey : Z) (t : Tool)
    (shape : Z * Z) (sks : list Skeleton) :
  image t = Some shape →
  live_skeletons t = Some sks →
  let x := (to_image_space t ex ey).1 in
  let y := (to_image_space t ex ey).2 in
  let cands := candidates (skeletons t) sks in
  (∃ t', mousePressEvent ex ey t = Some t'
     ∧ mousePressEvent ex ey t' = Some t'
     ∧ ((∃ r part c,
           first_hit x y cands (r, part, c)
           ∧ (∀ cand, first_hit x y cands cand → cand = (r, part, c))
           ∧ t' = set_selected_keypoint (Some part)
                    (set_selected_skeleton (Some r)
                       (set_image_label
                          (mkImageLabel (Some r) (Some part) true) t)))
        ∨ (Forall (λ c, is_hit x y c = false) cands ∧ t' = t)))
  ∧ (∀ r part c, is_hit x y (r, part, Some c) = true
                 ↔ (hypot (fsub x c.1) (fsub y c.2) <= 10)%Q)
  ∧ (∀ dx dy, (hypot dx dy <= 10)%Q
              ↔ (dx * dx + dy * dy <= hit_radius * hit_radius)%Q)
  ∧ (hit_radius == 10 + 2 ^ (-50))%Q
  ∧ (∃ t', mousePressEvent 320 240 two_overlapping = Some t'
           ∧ selected_skeleton t' = Some 0%nat
           ∧ selected_keypoint t' = Some "cover"%string)
  ∧ (∃ t', mousePressEvent 320 240 two_identical = Some t'
           ∧ selected_skeleton t' = Some 0%nat
           ∧ selected_keypoint t' = Some "cover"%string)
  ∧ (to_image_space (wheelEvent true two_identical) 352 275
       = (320%Q, (8796093022207999 # 35184372088832)%Q)
     ∧ ∃ t', mousePressEvent 352 275 (wheelEvent true two_identical)
             = Some t'
             ∧ selected_skeleton t' = Some 0%nat
             ∧ selected_keypoint t' = Some "cover"%string).
Proof.
  intros Hi Hl. cbv zeta. unfold to_image_space at 1 2 3 4 5.
  cbn [fst snd].
  set (x := fdiv (float_of_int (ex - offset_x t)) (zoom_level t)).
  set (y := fdiv (float_of_int (ey - offset_y t)) (zoom_level t)).
  set (cands := candidates (skeletons t) sks).
  split; [|split; [|split; [|split; [|split; [|split]]]]].
  - destruct (hit_test_first t x y (skeletons t) sks Hl)
      as (res & Hres & Hspec).
    assert (∃ t', mousePressEvent ex ey t = Some t'
              ∧ t' = match res with
                     | Some (r, part) =>
                         set_selected_keypoint (Some part)
                           (set_selected_skeleton (Some r)
                              (set_image_label
                                 (mkImageLabel (Some r) (Some part) true) t))
                     | None => t
                     end) as (t' & Hp & Ht').
    { unfold mousePressEvent. rewrite Hi. unfold to_image_space.
      fold x y. rewrite Hres. simpl.
      destruct res as [[r part]|]; eexists; split; reflexivity. }
    exists t'. split; [exact Hp |]. split.
    + destruct (mousePressEvent_heap _ _ _ _ Hp)
        as (Hh & Hs & Him & Hz & Hx & Hy).
      unfold mousePressEvent. rewrite Him, Hi. unfold to_image_space.
      rewrite Hz, Hx, Hy. fold x y. rewrite Hs.
      rewrite (hit_test_heap t t' x y _ Hh), Hres. simpl.
      destruct res as [[r part]|]; subst t'; reflexivity.
    + destruct res as [[r part]|].
      * left. destruct Hspec as [c Hc]. exists r, part, c.
        split; [exact Hc |]. split; [|exact Ht'].
        intros cand Hcand. eapply first_hit_unique; eassumption.
      * right. split; assumption.
  - intros r part [cx cy]. unfold is_hit, within_tolerance.
    cbn [fst snd]. apply Qle_bool_iff.
  - apply hypot_le_10.
  - reflexivity.
  - clear. eexists. vm_compute. repeat split; reflexivity.
  - clear. eexists. vm_compute. repeat split; reflexivity.
  - clear. split; [vm_compute; reflexivity |]. eexists. vm_compute.
    repeat split; reflexivity.
Qed.

Lemma mousePressEvent_first_within_tolerance_witness :
  ∃ t', mousePressEvent 352 275 (wheelEvent true two_identical) = Some t'
        ∧ mousePressEvent 352 275 t' = Some t'.
Proof.
  destruct (mousePressEvent_first_within_tolerance 352 275
              (wheelEvent true two_identical) (480, 640)
              (heap two_identical) eq_refl eq_refl)
    as [(t' & H1 & H2 & _) _].
  exists t'. split; assumption.
Defined.

(** ** Splitting and joining *)

Lemma split_from_blank_tail (cur s ws : str) :
  Forall (λ c, is_space c = true) ws →
  split_from cur (s ++ ws) = split_from cur s.
Proof.
  intros Hws. revert cur. induction s as [|c s IH]; intros cur.
  - simpl. revert cur. induction Hws as [|c ws Hc _ IHws]; intros cur.
    + reflexivity.
    + simpl. rewrite Hc. destruct cur; rewrite IHws; reflexivity.
  - simpl. destruct (is_space c); [destruct cur|]; rewrite ?IH; reflexivity.
Qed.

Lemma rstrip_blank_tail (s : str) :
  ∃ ws, s = rstrip s ++ ws ∧ Forall (λ c, is_space c = true) ws.
Proof.
  induction s as [|c s (ws & Hs & Hws)]; simpl.
  - exists []. split; [reflexivity | constructor].
  - destruct (rstrip s) as [|c' r] eqn:E.
    + destruct (is_space c) eqn:Ec.
      * exists (c :: ws). simpl in Hs. subst s. split; [reflexivity |].
        constructor; assumption.
      * exists ws. simpl in *. subst s. split; [reflexivity | assumption].
    + exists ws. simpl in *. rewrite Hs at 1. split; [reflexivity | assumption].
Qed.

Lemma split_lstrip (s : str) : split (lstrip s) = split s.
Proof.
  unfold split. induction s as [|c s IH]; simpl; [reflexivity |].
  destruct (is_space c) eqn:E; [exact IH |]. simpl. rewrite E. reflexivity.
Qed.

(** [strip] before [split] changes nothing. *)
Lemma split_strip (s : str) : split (strip s) = split s.
Proof.
  unfold strip. rewrite <- (split_lstrip s).
  destruct (rstrip_blank_tail (lstrip s)) as (ws & Hs & Hws).
  rewrite Hs at 2. unfold split. rewrite split_from_blank_tail by exact Hws.
  reflexivity.
Qed.

Lemma split_from_token (cur tok rest : str) :
  no_space tok →
  split_from cur (tok ++ rest) = split_from (rev tok ++ cur) rest.
Proof.
  intros H. revert cur. induction H as [|c tok Hc _ IH]; intros cur.
  - reflexivity.
  - simpl. rewrite Hc, IH, <- app_assoc. reflexivity.
Qed.

Lemma split_from_space (cur rest : str) :
  cur ≠ [] → split_from cur (lit " " ++ rest) = rev cur :: split_from [] rest.
Proof. intros H. destruct cur; [contradiction | reflexivity]. Qed.

Lemma rev_not_nil (s : str) : s ≠ [] → rev s ≠ [].
Proof.
  intros H E. apply H. rewrite <- (rev_involutive s), E. reflexivity.
Qed.

Lemma split_join (toks : list str) :
  Forall token toks → split (join (lit " ") toks) = toks.
Proof.
  unfold split. induction 1 as [|tok toks [Hne Hns] Htoks IH].
  - reflexivity.
  - destruct toks as [|tok2 toks].
    + simpl. rewrite <- (app_nil_r tok) at 1.
      rewrite split_from_token by exact Hns. simpl.
      rewrite app_nil_r. pose proof (rev_not_nil tok Hne).
      destruct (rev tok) eqn:E; [contradiction |].
      rewrite <- E, rev_involutive. reflexivity.
    + change (join (lit " ") (tok :: tok2 :: toks))
        with (tok ++ lit " " ++ join (lit " ") (tok2 :: toks)).
      rewrite split_from_token by exact Hns.
      rewrite app_nil_r, split_from_space by (apply rev_not_nil; exact Hne).
      rewrite rev_involutive, IH. reflexivity.
Qed.

(** ** Numerals *)

Lemma digit_val_char (d : Z) : 0 ≤ d < 10 → digit_val (digit_char d) = Some d.
Proof.
  intros H. assert (d = 0 ∨ d = 1 ∨ d = 2 ∨ d = 3 ∨ d = 4 ∨ d = 5 ∨ d = 6
                    ∨ d = 7 ∨ d = 8 ∨ d = 9) as Hd by lia.
  repeat (destruct Hd as [-> | Hd]; [reflexivity |]). subst. reflexivity.
Qed.

Lemma digit_not_space (c : ascii) : is_digit c → is_space c = false.
Proof.
  intros [d Hd]. unfold digit_val in Hd. unfold is_space.
  destruct ((48 <=? nat_of_ascii c)%nat && (nat_of_ascii c <=? 57)%nat) eqn:E;
    [|discriminate].
  apply andb_true_iff in E as [E1 E2].
  apply Nat.leb_le in E1, E2.
  apply orb_false_iff. split; apply andb_false_iff.
  - right. apply Nat.leb_gt. lia.
  - right. apply Nat.leb_gt. lia.
Qed.

Lemma digit_not_dot (c : ascii) : is_digit c → Ascii.eqb c "." = false.
Proof.
  intros [d Hd]. destruct (Ascii.eqb c ".") eqn:E; [|reflexivity].
  apply Ascii.eqb_eq in E. subst. discriminate.
Qed.

Lemma digit_not_sign (c : ascii) :
  is_digit c → Ascii.eqb c "-" = false ∧ Ascii.eqb c "+" = false.
Proof.
  intros [d Hd]. split.
  - destruct (Ascii.eqb c "-") eqn:E; [|reflexivity].
    apply Ascii.eqb_eq in E. subst. discriminate.
  - destruct (Ascii.eqb c "+") eqn:E; [|reflexivity].
    apply Ascii.eqb_eq in E. subst. discriminate.
Qed.

Lemma parse_digits_app (acc : Z) (a b : str) :
  parse_digits acc (a ++ b) = parse_digits acc a ≫= λ v, parse_digits v b.
Proof.
  revert acc. induction a as [|c a IH]; intros acc; simpl; [reflexivity |].
  destruct (digit_val c); simpl; [apply IH | reflexivity].
Qed.

Lemma pad_digits_digits (k : nat) (n : Z) : Forall is_digit (pad_digits k n).
Proof.
  revert n. induction k as [|k IH]; intros n; simpl; [constructor |].
  apply Forall_app. split; [apply IH |]. repeat constructor.
  exists (n mod 10). apply digit_val_char. apply Z.mod_pos_bound. lia.
Qed.

Lemma length_pad_digits (k : nat) (n : Z) : length (pad_digits k n) = k.
Proof.
  revert n. induction k as [|k IH]; intros n; simpl; [reflexivity |].
  rewrite length_app, IH. simpl. lia.
Qed.

Lemma parse_digits_last (v d : Z) :
  0 ≤ d < 10 → parse_digits v [digit_char d] = Some (10 * v + d).
Proof.
  intros H. cbn [parse_digits]. rewrite digit_val_char by exact H.
  reflexivity.
Qed.

Lemma parse_pad_digits (k : nat) (n acc : Z) :
  0 ≤ n →
  parse_digits acc (pad_digits k n)
  = Some (acc * 10 ^ Z.of_nat k + n mod 10 ^ Z.of_nat k).
Proof.
  revert n acc. induction k as [|k IH]; intros n acc Hn.
  - cbn [pad_digits parse_digits]. change (10 ^ Z.of_nat 0) with 1.
    rewrite Z.mod_1_r. f_equal. lia.
  - cbn [pad_digits]. rewrite parse_digits_app, IH by (apply Z.div_pos; lia).
    cbn [mbind option_bind].
    rewrite parse_digits_last by (apply Z.mod_pos_bound; lia).
    f_equal. rewrite Nat2Z.inj_succ, Z.pow_succ_r by lia.
    assert (0 < 10 ^ Z.of_nat k) as Hp by (apply Z.pow_pos_nonneg; lia).
    set (P := 10 ^ Z.of_nat k) in *.
    rewrite (Z.rem_mul_r n 10 P) by lia.
    lia.
Qed.

Lemma drop_leading_zeros_Forall (P : ascii → Prop) (s : str) :
  Forall P s → Forall P (drop_leading_zeros s).
Proof.
  induction 1 as [|c r Hc Hr IH]; [constructor |].
  cbn [drop_leading_zeros]. destruct r as [|c2 r].
  - constructor; assumption.
  - destruct (Ascii.eqb c "0"); [exact IH | constructor; assumption].
Qed.

Lemma drop_leading_zeros_not_nil (s : str) :
  s ≠ [] → drop_leading_zeros s ≠ [].
Proof.
  induction s as [|c r IH]; intros H; [contradiction |].
  cbn [drop_leading_zeros]. destruct r as [|c2 r]; [discriminate |].
  destruct (Ascii.eqb c "0"); [apply IH |]; discriminate.
Qed.

Lemma parse_drop_leading_zeros (s : str) :
  parse_digits 0 (drop_leading_zeros s) = parse_digits 0 s.
Proof.
  induction s as [|c r IH]; [reflexivity |].
  cbn [drop_leading_zeros]. destruct r as [|c2 r]; [reflexivity |].
  destruct (Ascii.eqb c "0") eqn:E; [|reflexivity].
  apply Ascii.eqb_eq in E. subst c. rewrite IH. reflexivity.
Qed.

Lemma pad_digits_not_nil (k : nat) (n : Z) : pad_digits (S k) n ≠ [].
Proof.
  cbn [pad_digits]. intros E. apply app_eq_nil in E as [_ E]. discriminate.
Qed.

Lemma lt_pow10_log2 (n : Z) : 0 ≤ n → n < 10 ^ Z.of_nat (S (Z.to_nat (Z.log2 n))).
Proof.
  intros Hn. rewrite Nat2Z.inj_succ, Z2Nat.id by apply Z.log2_nonneg.
  destruct (Z.eq_dec n 0) as [-> | Hne].
  - reflexivity.
  - destruct (Z.log2_spec n ltac:(lia)) as [_ H2].
    eapply Z.lt_le_trans; [exact H2 |].
    apply Z.pow_le_mono_l. split; [lia | lia].
Qed.

Lemma nat_digits_digits (n : Z) : Forall is_digit (nat_digits n).
Proof. apply drop_leading_zeros_Forall, pad_digits_digits. Qed.

Lemma nat_digits_not_nil (n : Z) : nat_digits n ≠ [].
Proof. apply drop_leading_zeros_not_nil, pad_digits_not_nil. Qed.

Lemma parse_nat_digits (n : Z) : 0 ≤ n → parse_digits 0 (nat_digits n) = Some n.
Proof.
  intros Hn. unfold nat_digits.
  rewrite parse_drop_leading_zeros, parse_pad_digits by exact Hn.
  f_equal. rewrite Z.mod_small; [lia |].
  split; [exact Hn | apply lt_pow10_log2; exact Hn].
Qed.

Lemma break_dot_digits (a b : str) :
  Forall is_digit a → break_dot (a ++ "."%char :: b) = (a, Some b).
Proof.
  induction 1 as [|c a Hc _ IH]; [reflexivity |].
  cbn [app break_dot]. rewrite (digit_not_dot c Hc), IH. reflexivity.
Qed.

Lemma split_sign_digit (c : ascii) (s : str) :
  is_digit c → split_sign (c :: s) = (false, c :: s).
Proof.
  intros H. destruct (digit_not_sign c H) as [H1 H2].
  cbn [split_sign]. rewrite H1, H2. reflexivity.
Qed.

Lemma millionths_nonneg (q : Q) : 0 ≤ millionths q.
Proof.
  apply round_half_even_nonneg.
  apply Qmult_le_0_compat; [apply Qabs_nonneg | discriminate].
Qed.

(** Unsigned part of [format_6f]. *)
Lemma py_float_unsigned (m : Z) :
  0 ≤ m →
  ∃ c s,
    nat_digits (m / 1000000) ++ ["."%char] ++ pad_digits 6 (m mod 1000000)
    = c :: s
    ∧ is_digit c
    ∧ break_dot (c :: s)
      = (nat_digits (m / 1000000), Some (pad_digits 6 (m mod 1000000)))
    ∧ parse_digits 0 (nat_digits (m / 1000000)) = Some (m / 1000000)
    ∧ parse_digits 0 (pad_digits 6 (m mod 1000000)) = Some (m mod 1000000).
Proof.
  intros Hm.
  pose proof (nat_digits_digits (m / 1000000)) as Hd.
  pose proof (nat_digits_not_nil (m / 1000000)) as Hne.
  assert (0 ≤ m / 1000000) as Hq by (apply Z.div_pos; lia).
  pose proof (Z.mod_pos_bound m 1000000 ltac:(lia)) as Hr.
  destruct (nat_digits (m / 1000000)) as [|c s] eqn:E; [contradiction |].
  exists c, (s ++ ["."%char] ++ pad_digits 6 (m mod 1000000)).
  split; [reflexivity |]. split; [inversion Hd; assumption |].
  split.
  - change (c :: s ++ ["."%char] ++ pad_digits 6 (m mod 1000000))
      with ((c :: s) ++ "."%char :: pad_digits 6 (m mod 1000000)).
    apply break_dot_digits. exact Hd.
  - split.
    + rewrite <- E. apply parse_nat_digits. exact Hq.
    + rewrite parse_pad_digits by lia.
      change (10 ^ Z.of_nat 6) with 1000000.
      rewrite Z.mod_mod by lia. f_equal.
Qed.

(** [float] reads what [format_6f] wrote. *)
Lemma py_float_format_6f (q : Q) :
  py_float (format_6f q) = Some (binary64 (quantized q)).
Proof.
  unfold format_6f, quantized. fold (millionths q).
  destruct (py_float_unsigned (millionths q) (millionths_nonneg q))
    as (c & s & E & Hc & Hb & Hi & Hf).
  assert (∀ neg, (let '(ip, fp) := break_dot (c :: s) in
           let frac := default [] fp in
           match ip ++ frac with
           | [] => None
           | _ =>
             i ← parse_digits 0 ip;
             f ← parse_digits 0 frac;
             let scale := 10 ^ Z.of_nat (length frac) in
             let v := Qmake (i * scale + f) (Z.to_pos scale) in
             Some (binary64 (if neg : bool then Qopp v else v))
           end)
          = Some (binary64 (if neg then Qopp (Qmake (millionths q) 1000000)
                            else Qmake (millionths q) 1000000))) as Hbody.
  { intros neg. rewrite Hb. cbn [default from_option id].
    pose proof (nat_digits_not_nil (millionths q / 1000000)) as Hne.
    destruct (nat_digits (millionths q / 1000000)) as [|c1 s1] eqn:En;
      [contradiction |].
    cbn [app]. rewrite Hi, Hf. cbn [mbind option_bind].
    rewrite length_pad_digits. change (10 ^ Z.of_nat 6) with 1000000.
    change (Z.to_pos 1000000) with 1000000%positive.
    replace (millionths q / 1000000 * 1000000
             + millionths q mod 1000000) with (millionths q)
      by (rewrite Z.mul_comm; apply Z.div_mod; lia).
    reflexivity. }
  rewrite E. unfold py_float. destruct (Qle_bool 0 q).
  - cbn [app]. rewrite split_sign_digit by exact Hc. apply (Hbody false).
  - cbn [app split_sign]. change (Ascii.eqb "-" "-") with true.
    cbn iota. apply (Hbody true).
Qed.

Lemma format_6f_token (q : Q) : token (format_6f q).
Proof.
  unfold format_6f. split.
  - intros E. apply app_eq_nil in E as [_ E].
    apply app_eq_nil in E as [E _].
    exact (nat_digits_not_nil _ E).
  - unfold no_space. apply Forall_app. split.
    + destruct (Qle_bool 0 q); repeat constructor.
    + apply Forall_app. split.
      * eapply Forall_impl; [apply nat_digits_digits |].
        intros c Hc. apply digit_not_space. exact Hc.
      * apply Forall_app. split; [repeat constructor |].
        eapply Forall_impl; [apply pad_digits_digits |].
        intros c Hc. apply digit_not_space. exact Hc.
Qed.

(** ** Six decimals *)

Lemma quantized_near (q : Q) :
  (0 <= q)%Q →
  (0 <= quantized q)%Q
  ∧ (quantized q - (1 # 2000000) <= q)%Q
  ∧ (q <= quantized q + (1 # 2000000))%Q.
Proof.
  intros Hq. unfold quantized.
  assert (Qle_bool 0 q = true) as -> by (apply Qle_bool_iff; exact Hq).
  pose proof (millionths_nonneg q) as Hm.
  unfold millionths in *.
  destruct (round_half_even_near (Qabs q * inject_Z 1000000)) as [H1 H2].
  pose proof (Qabs_pos q Hq) as Ha.
  set (m := round_half_even (Qabs q * inject_Z 1000000)) in *.
  assert (m # 1000000 == inject_Z m * (1 # 1000000))%Q as E.
  { unfold Qeq, Qmult, inject_Z. cbn [Qnum Qden]. lia. }
  split.
  - unfold Qle. cbn [Qnum Qden]. lia.
  - rewrite E. change (inject_Z 1000000) with (1000000 # 1)%Q in H1, H2.
    split; lra.
Qed.

(** ** What the encoder writes *)

Lemma save_keypoint_fold (W H : Z) (ann : dict (option Coords))
    (parts : list string) (keypoints : list str) (xs ys : list Q) :
  fold_left (save_keypoint W H ann) parts (keypoints, xs, ys)
  = (keypoints ++ (parts ≫= λ part, pair_tokens (keypoint_pair W H ann part)),
     xs ++ (fst <$> normalized W H ann parts),
     ys ++ (snd <$> normalized W H ann parts)).
Proof.
  revert keypoints xs ys.
  induction parts as [|part parts IH]; intros keypoints xs ys.
  - cbn. rewrite !app_nil_r. reflexivity.
  - cbn [fold_left]. unfold save_keypoint at 2, normalized, keypoint_pair.
    cbn [omap list_omap mbind list_bind].
    destruct (get_coords part ann) as [[x y]|]; cbn [mbind option_bind];
      rewrite IH; unfold normalized, keypoint_pair, pair_tokens;
      cbn [fst snd fmap list_fmap]; rewrite <- ?app_assoc; reflexivity.
Qed.

Lemma join_cons (sep x : str) (rest : list str) :
  rest ≠ [] → join sep (x :: rest) = x ++ sep ++ join sep rest.
Proof. destruct rest; [contradiction | reflexivity]. Qed.

Lemma skeleton_parts_not_nil (ty : SkeletonType) : skeleton_parts ty ≠ [].
Proof. destruct ty; discriminate. Qed.

(** The line of a skeleton is its tokens joined by blanks; a skeleton
    without a present part has no line. *)
Lemma yolo_format_line_tokens (W H : Z) (sk : Skeleton) :
  yolo_format_line W H sk
  = match normalized W H (annotations sk)
            (skeleton_parts (skeleton_type sk)) with
    | [] => None
    | p0 :: ps => Some (join (lit " ") (line_tokens W H sk p0 ps))
    end.
Proof.
  unfold yolo_format_line. rewrite save_keypoint_fold. cbn [app].
  destruct (normalized W H (annotations sk)
              (skeleton_parts (skeleton_type sk))) as [|[x0 y0] ps];
    [reflexivity |].
  cbn [fmap list_fmap fst snd]. f_equal. unfold line_tokens.
  cbn [fst snd app].
  assert ((skeleton_parts (skeleton_type sk)
             ≫= λ part, pair_tokens
                          (keypoint_pair W H (annotations sk) part)) ≠ [])
    as Hne.
  { pose proof (skeleton_parts_not_nil (skeleton_type sk)).
    destruct (skeleton_parts (skeleton_type sk)); [contradiction |].
    discriminate. }
  rewrite !join_cons by first [exact Hne | discriminate].
  reflexivity.
Qed.

Lemma yolo_data_fold (W H : Z) (sks : list Skeleton) (data : list str) :
  fold_left
    (λ data skeleton,
       match yolo_format_line W H skeleton with
       | Some line => data ++ [line]
       | None => data
       end) sks data
  = data ++ omap (yolo_format_line W H) sks.
Proof.
  revert data. induction sks as [|sk sks IH]; intros data.
  - cbn. rewrite app_nil_r. reflexivity.
  - cbn [fold_left omap list_omap]. rewrite IH.
    destruct (yolo_format_line W H sk);
      [rewrite <- app_assoc |]; reflexivity.
Qed.

(** One line per skeleton that has a line, in list order. *)
Lemma yolo_data_omap (W H : Z) (sks : list Skeleton) :
  yolo_data W H sks = omap (yolo_format_line W H) sks.
Proof. unfold yolo_data. rewrite yolo_data_fold. reflexivity. Qed.

(** ** What the decoder reads *)

Lemma dict_set_fresh {V} (k : string) (v : V) (d : dict V) :
  k ∉ d.*1 → dict_set k v d = d ++ [(k, v)].
Proof.
  induction d as [|[k' v'] d IH]; intros Hk; [reflexivity |].
  cbn [dict_set]. rewrite fmap_cons in Hk. apply not_elem_of_cons in Hk as [Hne Hk].
  destruct (String.eqb k k') eqn:E.
  - apply String.eqb_eq in E. contradiction.
  - rewrite IH by exact Hk. reflexivity.
Qed.

Lemma keys_of_graph {V} (g : string → V) (l : list string) :
  ((λ p, (p, g p)) <$> l).*1 = l.
Proof.
  induction l as [|p l IH]; [reflexivity |].
  rewrite !fmap_cons, IH. reflexivity.
Qed.

Lemma pair_tokens_lookup (f : string → str * str) (parts : list string)
    (n : nat) (part : string) :
  parts !! n = Some part →
  (parts ≫= λ p, pair_tokens (f p)) !! (n * 2)%nat = Some (f part).1
  ∧ (parts ≫= λ p, pair_tokens (f p)) !! (n * 2 + 1)%nat = Some (f part).2.
Proof.
  revert n. induction parts as [|p parts IH]; intros n Hn; [discriminate |].
  destruct n as [|n].
  - injection Hn as ->. split; reflexivity.
  - cbn in Hn. destruct (IH n Hn) as [H1 H2]. split; assumption.
Qed.

Lemma pair_tokens_length (f : string → str * str) (parts : list string) :
  length (parts ≫= λ p, pair_tokens (f p)) = (2 * length parts)%nat.
Proof.
  induction parts as [|p parts IH]; [reflexivity |].
  cbn [mbind list_bind length app pair_tokens]. cbn in IH. rewrite IH. lia.
Qed.

Section LoadKeypoints.
Variables (W H : Z) (f : string → str * str) (val : string → Q * Q).
Hypothesis f_float :
  ∀ p, py_float (f p).1 = Some (val p).1 ∧ py_float (f p).2 = Some (val p).2.

Lemma load_keypoints_prefix (parts : list string) (n : nat) :
  NoDup parts → (n ≤ length parts)%nat →
  fold_left (load_keypoint W H parts (parts ≫= λ p, pair_tokens (f p)))
    (seq 0 n) (Some [])
  = Some ((λ p, (p, stored W H val p)) <$> take n parts).
Proof.
  intros Hnd. induction n as [|n IH]; intros Hn; [reflexivity |].
  rewrite seq_S, fold_left_app, IH by lia. cbn [fold_left Nat.add].
  destruct (lookup_lt_is_Some_2 parts n ltac:(lia)) as [part Hpart].
  destruct (pair_tokens_lookup f parts n part Hpart) as [Hx Hy].
  unfold load_keypoint. cbn [mbind option_bind].
  rewrite pair_tokens_length.
  assert ((n * 2 + 1 <? 2 * length parts)%nat = true) as ->
    by (apply Nat.ltb_lt; lia).
  rewrite Hx, Hy. cbn [mbind option_bind].
  destruct (f_float part) as [-> ->]. cbn [mbind option_bind].
  rewrite Hpart. cbn [mbind option_bind].
  rewrite (take_S_r parts n part Hpart), fmap_app.
  assert (part ∉ ((λ p, (p, stored W H val p)) <$> take n parts).*1) as Hfresh.
  { rewrite keys_of_graph. intros Hin.
    apply list_elem_of_lookup in Hin as [i Hi].
    pose proof (lookup_lt_Some _ _ _ Hi) as Hlt.
    rewrite length_take in Hlt.
    rewrite lookup_take_lt in Hi by lia.
    pose proof (NoDup_lookup _ _ _ _ Hnd Hi Hpart). lia. }
  rewrite list_fmap_singleton.
  destruct (Qle_bool 0 (val part).1 && Qle_bool 0 (val part).2) eqn:E;
    rewrite dict_set_fresh by exact Hfresh; unfold stored; rewrite E;
    reflexivity.
Qed.

Lemma load_keypoints_all (parts : list string) :
  NoDup parts →
  fold_left (load_keypoint W H parts (parts ≫= λ p, pair_tokens (f p)))
    (seq 0 (length parts)) (Some [])
  = Some ((λ p, (p, stored W H val p)) <$> parts).
Proof.
  intros Hnd. rewrite load_keypoints_prefix by (auto; lia).
  rewrite firstn_all. reflexivity.
Qed.
End LoadKeypoints.

Lemma skeleton_parts_NoDup (ty : SkeletonType) : NoDup (skeleton_parts ty).
Proof. destruct ty; apply (bool_decide_unpack _); vm_compute; exact I. Qed.

Lemma format_class_index (ty : SkeletonType) :
  token (format_int (class_index ty))
  ∧ py_int (format_int (class_index ty)) = Some (class_index ty).
Proof.
  destruct ty; (split; [split; [discriminate | repeat constructor]
                       | reflexivity]).
Qed.

Lemma class_index_type (ty : SkeletonType) :
  (if class_index ty =? 0 then LMG else Rifle) = ty.
Proof. destruct ty; reflexivity. Qed.

Lemma keypoint_pair_float (W H : Z) (ann : dict (option Coords))
    (p : string) :
  py_float (keypoint_pair W H ann p).1 = Some (pair_value W H ann p).1
  ∧ py_float (keypoint_pair W H ann p).2 = Some (pair_value W H ann p).2.
Proof.
  unfold keypoint_pair, pair_value.
  destruct (get_coords p ann) as [[x y]|]; cbn [fst snd].
  - split; apply py_float_format_6f.
  - split; reflexivity.
Qed.

Lemma keypoint_pair_token (W H : Z) (ann : dict (option Coords))
    (p : string) :
  Forall token (pair_tokens (keypoint_pair W H ann p)).
Proof.
  unfold keypoint_pair, pair_tokens.
  destruct (get_coords p ann) as [[x y]|]; cbn [fst snd].
  - repeat constructor; apply format_6f_token.
  - repeat constructor; discriminate.
Qed.

Lemma stored_decoded (W H : Z) (ann : dict (option Coords)) (p : string) :
  stored W H (pair_value W H ann) p = decoded W H (get_coords p ann).
Proof.
  unfold stored, pair_value, decoded.
  destruct (get_coords p ann) as [[x y]|]; reflexivity.
Qed.

Lemma line_tokens_token (W H : Z) (sk : Skeleton) (p0 : Q * Q)
    (ps : list (Q * Q)) :
  Forall token (line_tokens W H sk p0 ps).
Proof.
  unfold line_tokens. apply Forall_app. split.
  - repeat constructor; first [apply format_class_index | apply format_6f_token].
  - induction (skeleton_parts (skeleton_type sk)) as [|p parts IH];
      [constructor |].
    cbn [mbind list_bind]. apply Forall_app. split; [|exact IH].
    apply keypoint_pair_token.
Qed.

Lemma split_strip_blank_tail (s ws : str) :
  Forall (λ c, is_space c = true) ws → split (strip (s ++ ws)) = split s.
Proof.
  intros Hws. rewrite split_strip. unfold split.
  apply split_from_blank_tail. exact Hws.
Qed.

(** Reading back the line of a skeleton, with or without blanks (the line
    feed) after it. *)
Lemma parse_line_yolo_format_line (W H : Z) (sk : Skeleton) (line ws : str) :
  yolo_format_line W H sk = Some line →
  Forall (λ c, is_space c = true) ws →
  parse_line W H (line ++ ws)
  = Some (Some (skeleton_type sk, decoded_annotations W H sk)).
Proof.
  rewrite yolo_format_line_tokens.
  destruct (normalized W H (annotations sk)
              (skeleton_parts (skeleton_type sk))) as [|p0 ps];
    [discriminate |].
  intros Hl Hws.
  assert (line = join (lit " ") (line_tokens W H sk p0 ps)) as ->
    by congruence.
  clear Hl. unfold parse_line.
  rewrite split_strip_blank_tail by exact Hws.
  rewrite split_join by apply line_tokens_token.
  unfold line_tokens. cbn [app length Nat.ltb Nat.leb].
  cbn [lookup list_lookup mbind option_bind drop].
  destruct (format_class_index (skeleton_type sk)) as [_ ->].
  cbn [mbind option_bind]. rewrite !py_float_format_6f.
  cbn [mbind option_bind]. rewrite class_index_type, drop_0.
  rewrite (load_keypoints_all W H (keypoint_pair W H (annotations sk))
             (pair_value W H (annotations sk))
             (keypoint_pair_float W H (annotations sk))
             _ (skeleton_parts_NoDup (skeleton_type sk))).
  cbn [mbind option_bind]. do 3 f_equal. unfold decoded_annotations.
  apply list_fmap_ext. intros i p _. rewrite stored_decoded. reflexivity.
Qed.

(** ** Lines of a file *)

Lemma readlines_from_line (cur line rest : str) :
  newline ∉ line →
  readlines_from cur (line ++ rest) = readlines_from (rev line ++ cur) rest.
Proof.
  revert cur. induction line as [|c line IH]; intros cur Hn; [reflexivity |].
  apply not_elem_of_cons in Hn as [Hc Hn].
  cbn [app readlines_from].
  destruct (Ascii.eqb c newline) eqn:E.
  - apply Ascii.eqb_eq in E. congruence.
  - rewrite IH by exact Hn. cbn [rev]. rewrite <- app_assoc. reflexivity.
Qed.

Lemma readlines_join (lines : list str) :
  Forall (λ l, l ≠ [] ∧ newline ∉ l) lines →
  readlines (join [newline] lines) = with_line_feeds lines.
Proof.
  unfold readlines. induction 1 as [|line lines [Hne Hnl] Hl IH];
    [reflexivity |].
  destruct lines as [|line2 lines].
  - cbn [join with_line_feeds]. rewrite <- (app_nil_r line) at 1.
    rewrite readlines_from_line by exact Hnl. cbn [readlines_from].
    rewrite app_nil_r. pose proof (rev_not_nil line Hne).
    destruct (rev line) eqn:E; [contradiction |].
    rewrite <- E, rev_involutive. reflexivity.
  - change (join [newline] (line :: line2 :: lines))
      with (line ++ [newline] ++ join [newline] (line2 :: lines)).
    change (with_line_feeds (line :: line2 :: lines))
      with ((line ++ [newline]) :: with_line_feeds (line2 :: lines)).
    rewrite readlines_from_line by exact Hnl.
    cbn [app readlines_from]. change (Ascii.eqb newline newline) with true.
    cbn iota. rewrite IH, app_nil_r. cbn [rev].
    rewrite rev_involutive. reflexivity.
Qed.

Lemma join_blank_chars (toks : list str) (c : ascii) :
  Forall token toks → c ∈ join (lit " ") toks →
  c = " "%char ∨ is_space c = false.
Proof.
  induction 1 as [|tok toks [_ Hns] _ IH]; intros Hc.
  - inversion Hc.
  - destruct toks as [|tok2 toks].
    + cbn [join] in Hc. right. unfold no_space in Hns.
      rewrite Forall_forall in Hns. apply Hns. exact Hc.
    + change (join (lit " ") (tok :: tok2 :: toks))
        with (tok ++ lit " " ++ join (lit " ") (tok2 :: toks)) in Hc.
      apply elem_of_app in Hc as [Hc | Hc].
      * right. unfold no_space in Hns. rewrite Forall_forall in Hns.
        apply Hns. exact Hc.
      * apply elem_of_app in Hc as [Hc | Hc]; [|apply IH; exact Hc].
        left. apply elem_of_cons in Hc as [Hc | Hc]; [exact Hc |].
        inversion Hc.
Qed.

Lemma yolo_format_line_no_feed (W H : Z) (sk : Skeleton) (line : str) :
  yolo_format_line W H sk = Some line → line ≠ [] ∧ newline ∉ line.
Proof.
  rewrite yolo_format_line_tokens.
  destruct (normalized W H (annotations sk)
              (skeleton_parts (skeleton_type sk))) as [|p0 ps];
    [discriminate |].
  intros Hl.
  assert (line = join (lit " ") (line_tokens W H sk p0 ps)) as ->
    by congruence.
  clear Hl. pose proof (line_tokens_token W H sk p0 ps) as Htok. split.
  - intros E. pose proof (split_join _ Htok) as Hs. rewrite E in Hs.
    unfold line_tokens in Hs. discriminate.
  - intros Hin. destruct (join_blank_chars _ _ Htok Hin) as [E | E];
      discriminate.
Qed.

(** Every line that [readlines] returns is a written line followed by
    blanks only. *)
Lemma with_line_feeds_blank (lines : list str) :
  Forall2 (λ line l, ∃ ws, l = line ++ ws
                           ∧ Forall (λ c, is_space c = true) ws)
    lines (with_line_feeds lines).
Proof.
  induction lines as [|line lines IH]; [constructor |].
  destruct lines as [|line2 lines].
  - repeat constructor. exists []. rewrite app_nil_r. split; constructor.
  - change (with_line_feeds (line :: line2 :: lines))
      with ((line ++ [newline]) :: with_line_feeds (line2 :: lines)).
    constructor; [|exact IH]. exists [newline].
    split; [reflexivity | repeat constructor].
Qed.

(** ** Saving and loading again *)

Lemma load_lines_yolo (W H : Z) (sks : list Skeleton) (ls : list str)
    (t : Tool) (acc : list Skeleton) :
  Forall2 (λ sk l, ∃ line ws, yolo_format_line W H sk = Some line
                              ∧ l = line ++ ws
                              ∧ Forall (λ c, is_space c = true) ws) sks ls →
  live_skeletons t = Some acc →
  ∃ t' new,
    fold_left (load_line W H) ls (Some t) = Some t'
    ∧ live_skeletons t' = Some (acc ++ new)
    ∧ Forall2 (loaded_from W H) sks new
    ∧ files t' = files t ∧ image t' = image t.
Proof.
  intros HF. revert t acc.
  induction HF as [|sk l sks ls (line & ws & Hline & -> & Hws) _ IH];
    intros t acc Hlive.
  - exists t, []. rewrite app_nil_r. repeat split; [exact Hlive | constructor].
  - destruct (get_next_skeleton_id_spec t acc Hlive) as (m & Hm & _).
    set (obj := mkSkeleton m (decoded_annotations W H sk) (skeleton_type sk)).
    set (t1 := set_skeletons (skeletons t ++ [length (heap t)])
                 (set_heap (heap t ++ [obj]) t)).
    assert (load_line W H (Some t) (line ++ ws) = Some t1) as Hstep.
    { unfold load_line. cbn [mbind option_bind].
      rewrite (parse_line_yolo_format_line W H sk line ws Hline Hws).
      cbn [mbind option_bind]. rewrite Hm. reflexivity. }
    assert (live_skeletons t1 = Some (acc ++ [obj])) as Hlive1.
    { unfold live_skeletons, deref, t1. cbn [heap skeletons set_skeletons
        set_heap]. apply live_skeletons_app. exact Hlive. }
    destruct (IH t1 (acc ++ [obj]) Hlive1)
      as (t' & new & Hfold & Hl' & HF' & Hfiles & Himg).
    exists t', (obj :: new). cbn [fold_left]. rewrite Hstep.
    split; [exact Hfold |]. split.
    + rewrite Hl', <- app_assoc. reflexivity.
    + split; [|split; assumption].
      constructor; [split; reflexivity | exact HF'].
Qed.

Lemma dict_lookup_graph {V} (g : string → V) (l : list string) (p : string) :
  p ∈ l → dict_lookup p ((λ p, (p, g p)) <$> l) = Some (g p).
Proof.
  induction l as [|q l IH]; intros Hp; [inversion Hp |].
  rewrite fmap_cons. cbn [dict_lookup].
  destruct (String.eqb p q) eqn:E.
  - apply String.eqb_eq in E. subst. reflexivity.
  - apply IH. apply elem_of_cons in Hp as [-> | Hp]; [|exact Hp].
    rewrite String.eqb_refl in E. discriminate.
Qed.

Lemma get_coords_decoded (W H : Z) (sk : Skeleton) (part : string) :
  part ∈ skeleton_parts (skeleton_type sk) →
  get_coords part (decoded_annotations W H sk)
  = decoded W H (get_coords part (annotations sk)).
Proof.
  intros Hp. unfold get_coords at 1, decoded_annotations.
  rewrite (dict_lookup_graph
             (λ p, decoded W H (get_coords p (annotations sk))) _ _ Hp).
  reflexivity.
Qed.

Lemma normalized_nil (W H : Z) (ann : dict (option Coords))
    (parts : list string) :
  normalized W H ann parts = [] →
  ∀ part, part ∈ parts → get_coords part ann = None.
Proof.
  induction parts as [|p parts IH]; intros Hn part Hp; [inversion Hp |].
  unfold normalized in Hn. cbn [omap list_omap] in Hn.
  destruct (get_coords p ann) as [[x y]|] eqn:E; cbn [mbind option_bind] in Hn;
    [discriminate |].
  apply elem_of_cons in Hp as [-> | Hp]; [exact E |].
  apply IH; assumption.
Qed.

Lemma has_present_line (W H : Z) (sk : Skeleton) :
  has_present sk → is_Some (yolo_format_line W H sk).
Proof.
  intros (part & Hp & Hs). rewrite yolo_format_line_tokens.
  destruct (normalized W H (annotations sk)
              (skeleton_parts (skeleton_type sk))) as [|p0 ps] eqn:E;
    [|eexists; reflexivity].
  rewrite (normalized_nil _ _ _ _ E part Hp) in Hs.
  destruct Hs as [? Hs]. discriminate.
Qed.

Lemma no_present_no_line (W H : Z) (sk : Skeleton) :
  (∀ part, part ∈ skeleton_parts (skeleton_type sk) →
           get_coords part (annotations sk) = None) →
  yolo_format_line W H sk = None.
Proof.
  intros Hn. rewrite yolo_format_line_tokens.
  assert (normalized W H (annotations sk)
            (skeleton_parts (skeleton_type sk)) = []) as ->; [|reflexivity].
  induction (skeleton_parts (skeleton_type sk)) as [|p parts IH];
    [reflexivity |].
  unfold normalized. cbn [omap list_omap].
  rewrite (Hn p) by left. cbn [mbind option_bind].
  apply IH. intros part Hp. apply Hn. right. exact Hp.
Qed.

Lemma read_back_scaled (x : Q) (W : Z) :
  (0 <= x)%Q → 0 < W →
  Qle_bool 0 (read_back x W) = true
  ∧ (Qabs (fmul (read_back x W) (inject_Z W) - x)
     <= (1 # 2000000) * inject_Z W + float_slack W x)%Q.
Proof.
  intros Hx HW.
  assert (1 <= inject_Z W)%Q as HWq.
  { unfold Qle, inject_Z. cbn [Qnum Qden]. lia. }
  assert (0 <= x / inject_Z W)%Q as Ha.
  { apply Qle_shift_div_l; lra. }
  assert (x == (x / inject_Z W) * inject_Z W)%Q as Ex.
  { rewrite Qmult_comm, Qmult_div_r; [reflexivity | lra]. }
  unfold read_back, fmul, fdiv, float_slack.
  set (w := inject_Z W) in *. set (a := (x / w)%Q) in *.
  destruct (binary64_error_nonneg a Ha) as (Hn0 & Hn1 & Hn2).
  set (n := binary64 a) in *.
  destruct (quantized_near n Hn0) as (Hd0 & Hd1 & Hd2).
  set (d := quantized n) in *.
  destruct (binary64_error_nonneg d Hd0) as (Hv0 & Hv1 & Hv2).
  set (v := binary64 d) in *.
  assert (0 <= v * w)%Q as Hp0 by (apply Qmult_le_0_compat; lra).
  destruct (binary64_error_nonneg (v * w) Hp0) as (Hr0 & Hr1 & Hr2).
  set (r := binary64 (v * w)) in *.
  split; [apply Qle_bool_iff; exact Hv0 |].
  set (u := (1 # 9007199254740992)%Q) in *.
  set (e := (1 # 1152921504606846976)%Q) in *.
  set (h := (1 # 2000000)%Q) in *.
  (* |v - a| <= delta, and then the same after multiplying by w *)
  set (delta := (h + a * (2 * u + u * u) + (u * (e + h) + 2 * e))%Q).
  assert (v - a <= delta)%Q as Hva1 by (unfold delta, u, e, h in *; nra).
  assert (a - v <= delta)%Q as Hva2 by (unfold delta, u, e, h in *; nra).
  assert (0 <= (delta - (v - a)) * w)%Q as Hw1
    by (apply Qmult_le_0_compat; lra).
  assert (0 <= (delta - (a - v)) * w)%Q as Hw2
    by (apply Qmult_le_0_compat; lra).
  apply Qabs_Qle_condition.
  unfold delta, u, e, h in *. split; lra.
Qed.

Lemma decoded_nonnegative (W H : Z) (x y : Q) :
  0 < W → 0 < H → (0 <= x)%Q → (0 <= y)%Q →
  ∃ c', decoded W H (Some (x, y)) = Some c' ∧ close_to W H (x, y) c'.
Proof.
  intros HW HH Hx Hy.
  destruct (read_back_scaled x W Hx HW) as [Bx Cx].
  destruct (read_back_scaled y H Hy HH) as [By Cy].
  unfold decoded. rewrite Bx, By. cbn [andb].
  eexists. split; [reflexivity |]. split; assumption.
Qed.

Lemma loaded_same_keypoints (W H : Z) (sk sk' : Skeleton) :
  0 < W → 0 < H → nonnegative sk → loaded_from W H sk sk' →
  same_keypoints W H sk sk'.
Proof.
  intros HW HH Hnn [Hty Hann]. split; [exact Hty |].
  intros part Hp. rewrite Hann, get_coords_decoded by exact Hp.
  destruct (get_coords part (annotations sk)) as [[x y]|] eqn:E;
    [|exact I].
  destruct (Hnn part x y Hp E) as [Hx Hy].
  destruct (decoded_nonnegative W H x y HW HH Hx Hy) as (c' & Hd & Hc).
  match goal with
  | |- match ?d with _ => _ end =>
      replace d with (Some c') by (symmetry; exact Hd)
  end.
  exact Hc.
Qed.

Section RoundTrip.
Variable label_file_path : string → string → string.

(** Saving the skeletons [sks] of [t], when each has a line, and loading
    the file again. *)
Lemma save_then_load (t : Tool) (folder : string) (H W : Z)
    (sks : list Skeleton) :
  folder_selected t = Some folder →
  image t = Some (H, W) →
  live_skeletons t = Some sks →
  Forall has_present sks →
  ∃ t1 t2 sks',
    save_annotations label_file_path t = Some t1
    ∧ load_annotations label_file_path t1 = Some t2
    ∧ live_skeletons t2 = Some sks'
    ∧ Forall2 (loaded_from W H) sks sks'.
Proof.
  intros Hf Hi Hl Hp.
  assert (Forall2 (λ sk line, yolo_format_line W H sk = Some line) sks
            (omap (yolo_format_line W H) sks)) as Hlines.
  { clear Hl. induction Hp as [|sk sks Hsk _ IH]; [constructor |].
    cbn [omap list_omap].
    destruct (has_present_line W H sk Hsk) as [line Hline].
    rewrite Hline. constructor; assumption. }
  destruct sks as [|sk0 sks].
  - assert (skeletons t = []) as Hs.
    { apply length_mapM in Hl. destruct (skeletons t); [reflexivity |].
      discriminate. }
    set (path := label_file_path folder (image_file_path t)).
    set (t1 := set_files (delete path (files t)) t).
    exists t1, t1, []. split.
    { unfold save_annotations. rewrite Hf, Hi, Hs. reflexivity. }
    split.
    { unfold load_annotations.
      change (folder_selected t1) with (folder_selected t).
      change (files t1) with (delete path (files t)).
      change (image_file_path t1) with (image_file_path t).
      rewrite Hf. fold path. rewrite lookup_delete_eq. reflexivity. }
    split; [|constructor].
    unfold live_skeletons. change (skeletons t1) with (skeletons t).
    rewrite Hs. reflexivity.
  - assert (∃ r rs, skeletons t = r :: rs) as (r & rs & Hs).
    { apply length_mapM in Hl. destruct (skeletons t); [discriminate |].
      eauto. }
    set (data := omap (yolo_format_line W H) (sk0 :: sks)) in *.
    assert (data ≠ []) as Hdata.
    { intros E. rewrite E in Hlines. inversion Hlines. }
    set (path := label_file_path folder (image_file_path t)).
    set (t1 := set_files (<[path := join [newline] data]> (files t)) t).
    assert (save_annotations label_file_path t = Some t1) as Hsave.
    { unfold save_annotations. rewrite Hf, Hi, Hs, Hl.
      cbn [mbind option_bind]. unfold save_yolo_format.
      rewrite yolo_data_omap. fold data.
      destruct data; [contradiction | reflexivity]. }
    assert (Forall (λ l, l ≠ [] ∧ newline ∉ l) data) as Hfeed.
    { clear -Hlines. induction Hlines as [|sk line ? ? Hline _ IH];
        [constructor |].
      constructor; [|exact IH].
      eapply yolo_format_line_no_feed. exact Hline. }
    assert (Forall2 (λ sk l, ∃ line ws,
              yolo_format_line W H sk = Some line
              ∧ l = line ++ ws
              ∧ Forall (λ c, is_space c = true) ws)
              (sk0 :: sks) (with_line_feeds data)) as Hread.
    { pose proof (with_line_feeds_blank data) as Hb.
      revert Hb. generalize (with_line_feeds data).
      clear -Hlines. induction Hlines as [|sk line sks1 lines1 Hline _ IH];
        intros ls Hb.
      - inversion Hb. constructor.
      - inversion Hb as [|? l1 ? ls' (ws & Hl1 & Hws) Hb']; subst.
        constructor; [|apply IH; exact Hb'].
        exists line, ws. auto. }
    assert (live_skeletons (set_skeletons [] t1) = Some []) as Hl0
      by reflexivity.
    destruct (load_lines_yolo W H _ _ _ [] Hread Hl0)
      as (t2 & new & Hfold & Hl2 & HF & _ & _).
    exists t1, t2, new. split; [exact Hsave |].
    split; [|split; assumption].
    unfold load_annotations.
    change (folder_selected t1) with (folder_selected t).
    change (files t1) with (<[path := join [newline] data]> (files t)).
    change (image_file_path t1) with (image_file_path t).
    change (image t1) with (image t).
    rewrite Hf. fold path. rewrite lookup_insert_eq, Hi.
    cbn [mbind option_bind]. rewrite readlines_join by exact Hfeed.
    exact Hfold.
Qed.
End RoundTrip.

Lemma default_has_present (ty : SkeletonType) (m cx cy : Z) :
  has_present (mkSkeleton m (default_positions ty cx cy) ty).
Proof.
  exists "butt"%string. destruct ty; (split; [left | eexists; reflexivity]).
Qed.

(** C1, as stated, fails: the skeleton of [small_image] has present key
    points, its butt is at (-50, 50), and after saving and loading the
    butt is absent. *)
Lemma round_trip_loses_negative_position :
  (∃ sks, live_skeletons small_image = Some sks ∧ Forall has_present sks)
  ∧ ¬ round_trips example_label_path small_image.
Proof.
  split.
  - eexists. split; [reflexivity |].
    constructor; [apply default_has_present | constructor].
  - intros (H & W & sks & t1 & t2 & sks' & Hi & Hl & Hs & Hld & Hl2 & HF).
    injection Hi as <- <-. injection Hl as <-.
    destruct (save_then_load example_label_path small_image "out" 100 100
                [mkSkeleton 1 (default_positions LMG 50 50) LMG]
                eq_refl eq_refl eq_refl)
      as (t1' & t2' & sks'' & Hs' & Hld' & Hl2' & HF').
    { constructor; [apply default_has_present | constructor]. }
    rewrite Hs' in Hs. injection Hs as <-.
    rewrite Hld' in Hld. injection Hld as <-.
    rewrite Hl2' in Hl2. injection Hl2 as <-.
    inversion HF as [|? sk' ? ? [_ Hsame] _]; subst.
    inversion HF' as [|? ? ? ? [_ Hann] _]; subst.
    specialize (Hsame "butt"%string ltac:(left)).
    rewrite Hann in Hsame. vm_compute in Hsame. exact Hsame.
Qed.

(** Half a millionth of the image size alone does not bound the error of
    the positions read back: 9 on a width of 640 is written [0.014063]
    (the [float] quotient is just above the tie 0.0140625) and is read
    back as the [float] nearest to 9.00032, which is farther from 9 than
    0.00032. *)
Lemma read_back_exceeds_half_millionth :
  format_6f (fdiv 9 (inject_Z 640)) = lit "0.014063"
  ∧ fmul (read_back 9 640) (inject_Z 640)
    = (5066729724776903 # 562949953421312)%Q
  ∧ ¬ (Qabs (fmul (read_back 9 640) (inject_Z 640) - 9)
       <= (1 # 2000000) * inject_Z 640)%Q.
Proof.
  split; [vm_compute; reflexivity |]. split; [vm_compute; reflexivity |].
  intros H. vm_compute in H. apply H. reflexivity.
Qed.

(** C1, amended: when every present key point has non-negative
    coordinates and the image has positive width and height, saving the
    skeletons (each with a present key point) and loading the file gives,
    in order, skeletons of the same type with the same present parts and
    positions within half a millionth of the width and of the height plus
    the rounding of the [float] operations, [2 ^ -51] of the size plus the
    coordinate ([close_to]). *)
Theorem save_load_round_trip (label_file_path : string → string → string)
    (t : Tool) (folder : string) (H W : Z) (sks : list Skeleton) :
  folder_selected t = Some folder →
  image t = Some (H, W) → 0 < W → 0 < H →
  live_skeletons t = Some sks →
  Forall has_present sks →
  Forall nonnegative sks →
  ∃ t1 t2 sks',
    save_annotations label_file_path t = Some t1
    ∧ load_annotations label_file_path t1 = Some t2
    ∧ live_skeletons t2 = Some sks'
    ∧ Forall2 (same_keypoints W H) sks sks'.
Proof.
  intros Hf Hi HW HH Hl Hp Hnn.
  destruct (save_then_load label_file_path t folder H W sks Hf Hi Hl Hp)
    as (t1 & t2 & sks' & Hs & Hld & Hl2 & HF).
  exists t1, t2, sks'. repeat split; try assumption.
  clear -HF Hnn HW HH. induction HF as [|sk sk' sks sks' Hld _ IH];
    [constructor |].
  inversion Hnn; subst. constructor; [|apply IH; assumption].
  apply loaded_same_keypoints; assumption.
Qed.

Lemma large_image_nonnegative :
  nonnegative (mkSkeleton 1 (default_positions LMG 320 240) LMG).
Proof.
  intros part x y Hp E. cbn in Hp.
  repeat (apply elem_of_cons in Hp as [-> | Hp];
          [injection E as <- <-; split; discriminate |]).
  inversion Hp.
Qed.

Lemma save_load_round_trip_witness : round_trips example_label_path large_image.
Proof.
  destruct (save_load_round_trip example_label_path large_image "out"
              480 640 [mkSkeleton 1 (default_positions LMG 320 240) LMG]
              eq_refl eq_refl eq_refl eq_refl eq_refl)
    as (t1 & t2 & sks' & Hs & Hld & Hl2 & HF).
  - constructor; [apply default_has_present | constructor].
  - constructor; [apply large_image_nonnegative | constructor].
  - exists 480, 640. eexists _, t1, t2, sks'.
    split; [reflexivity |]. split; [reflexivity |]. auto.
Defined.

Lemma yolo_format_line_None (W H : Z) (sk : Skeleton) :
  yolo_format_line W H sk = None
  ↔ ∀ part, part ∈ skeleton_parts (skeleton_type sk) →
            get_coords part (annotations sk) = None.
Proof.
  split; [|apply no_present_no_line].
  rewrite yolo_format_line_tokens.
  destruct (normalized W H (annotations sk)
              (skeleton_parts (skeleton_type sk))) as [|p0 ps] eqn:E;
    [|discriminate].
  intros _. apply (normalized_nil _ _ _ _ E).
Qed.

Lemma format_6f_shape (q : Q) :
  ∃ int_part frac,
    format_6f q
    = (if Qle_bool 0 q then [] else ["-"%char])
        ++ int_part ++ "."%char :: frac
    ∧ int_part ≠ [] ∧ Forall is_digit int_part
    ∧ length frac = 6%nat ∧ Forall is_digit frac.
Proof.
  eexists _, _. split; [reflexivity |].
  split; [apply nat_digits_not_nil |].
  split; [apply nat_digits_digits |].
  split; [apply length_pad_digits | apply pad_digits_digits].
Qed.

(** C4: the encoder writes one line per skeleton in list order and none
    for a skeleton without a present key point; a line is the class index,
    four box fields and, per part in the fixed order, the position divided
    by the image size (a [float] division) with six decimals or the two
    tokens [-1 -1]; the line of [only_butt] on a 200 by 200 image is as
    the specification gives it.  The six decimals are those of the rounded
    quotient: 1 on a width of 640 is written [0.001563], where the exact
    quotient 0.0015625 would give [0.001562]. *)
Theorem yolo_data_one_line_per_skeleton (W H : Z) (sks : list Skeleton) :
  yolo_data W H sks = omap (yolo_format_line W H) sks
  ∧ (∀ sk, yolo_format_line W H sk = None
           ↔ ∀ part, part ∈ skeleton_parts (skeleton_type sk) →
                     get_coords part (annotations sk) = None)
  ∧ (∀ sk line,
       yolo_format_line W H sk = Some line →
       ∃ bbox,
         length bbox = 4%nat
         ∧ split line
           = format_int (class_index (skeleton_type sk)) :: bbox
             ++ (skeleton_parts (skeleton_type sk)
                   ≫= λ part,
                        match get_coords part (annotations sk) with
                        | Some (x, y) =>
                            [format_6f (fdiv x (inject_Z W));
                             format_6f (fdiv y (inject_Z H))]
                        | None => [lit "-1"; lit "-1"]
                        end))
  ∧ (∀ q, ∃ int_part frac,
       format_6f q
       = (if Qle_bool 0 q then [] else ["-"%char])
           ++ int_part ++ "."%char :: frac
       ∧ int_part ≠ [] ∧ Forall is_digit int_part
       ∧ length frac = 6%nat ∧ Forall is_digit frac)
  ∧ yolo_data 200 200 [only_butt]
    = [lit ("0 0.500000 0.500000 0.000000 0.000000 0.500000 0.500000"
            ++ " -1 -1 -1 -1 -1 -1 -1 -1 -1 -1 -1 -1 -1 -1")]
  ∧ format_6f (fdiv 1 (inject_Z 640)) = lit "0.001563"
  ∧ format_6f (1 / inject_Z 640) = lit "0.001562".
Proof.
  split; [apply yolo_data_omap |].
  split; [intros sk; apply yolo_format_line_None |].
  split; [|split; [apply format_6f_shape | repeat split; vm_compute;
                                             reflexivity]].
  intros sk line. rewrite yolo_format_line_tokens.
  destruct (normalized W H (annotations sk)
              (skeleton_parts (skeleton_type sk))) as [|p0 ps];
    [discriminate |].
  intros Hl.
  assert (line = join (lit " ") (line_tokens W H sk p0 ps)) as ->
    by congruence.
  rewrite split_join by apply line_tokens_token.
  unfold line_tokens. eexists [_; _; _; _]. split; [reflexivity |].
  cbn [app]. do 5 f_equal.
  induction (skeleton_parts (skeleton_type sk)) as [|p parts IH];
    [reflexivity |].
  cbn [mbind list_bind]. rewrite IH. f_equal.
  unfold keypoint_pair, pair_tokens.
  destruct (get_coords p (annotations sk)) as [[x y]|]; reflexivity.
Qed.

Lemma yolo_data_one_line_per_skeleton_witness :
  ∃ bbox,
    length bbox = 4%nat
    ∧ split (lit ("0 0.500000 0.500000 0.000000 0.000000 0.500000 0.500000"
                  ++ " -1 -1 -1 -1 -1 -1 -1 -1 -1 -1 -1 -1 -1 -1"))
      = format_int 0 :: bbox
        ++ (lmg_parts
              ≫= λ part,
                   match get_coords part (annotations only_butt) with
                   | Some (x, y) =>
                       [format_6f (fdiv x (inject_Z 200));
                        format_6f (fdiv y (inject_Z 200))]
                   | None => [lit "-1"; lit "-1"]
                   end).
Proof.
  destruct (yolo_data_one_line_per_skeleton 200 200 [only_butt])
    as (_ & _ & Hline & _).
  apply (Hline only_butt). vm_compute. reflexivity.
Defined.

(** ** Undo and redo *)

Lemma dict_set_set_same {V} (k : string) (v w : V) (d : dict V) :
  dict_lookup k d = Some v → dict_set k v (dict_set k w d) = d.
Proof.
  induction d as [|[k' v'] d IH]; intros H; [discriminate |].
  cbn [dict_lookup] in H. cbn [dict_set].
  destruct (String.eqb k k') eqn:E.
  - cbn [dict_set]. rewrite E. congruence.
  - cbn [dict_set]. rewrite E, IH by exact H. reflexivity.
Qed.

Lemma with_annotation_undo (part : string) (v w : option Coords)
    (sk : Skeleton) :
  dict_lookup part (annotations sk) = Some v →
  with_annotation part v (with_annotation part w sk) = sk.
Proof.
  intros H. unfold with_annotation. cbn [skeleton_id annotations skeleton_type].
  rewrite dict_set_set_same by exact H. destruct sk; reflexivity.
Qed.

Lemma with_annotation_lookup (part : string) (v : option Coords)
    (sk : Skeleton) :
  dict_lookup part (annotations (with_annotation part v sk)) = Some v.
Proof. apply dict_lookup_set_eq. Qed.

Lemma list_remove_last (r : nat) (l : list nat) :
  r ∉ l → list_remove r (l ++ [r]) = Some l.
Proof.
  induction l as [|x l IH]; intros Hr.
  - cbn. rewrite Nat.eqb_refl. reflexivity.
  - apply not_elem_of_cons in Hr as [Hne Hr]. cbn [app list_remove].
    destruct (Nat.eqb r x) eqn:E; [apply Nat.eqb_eq in E; contradiction |].
    rewrite IH by exact Hr. reflexivity.
Qed.

Lemma consistent_grow (h : list Action) (objs : list Skeleton)
    (sks : list nat) (obj : Skeleton) :
  consistent h objs sks → consistent h (objs ++ [obj]) sks.
Proof.
  revert objs sks. induction h as [|a h IH]; intros objs sks Hc;
    [exact I |].
  destruct a as [r | r part old new | r part old | l]; cbn [consistent] in *.
  - destruct Hc as (sks' & -> & Hr & Hlt & Hc). exists sks'.
    repeat split; try assumption.
    + rewrite length_app. lia.
    + apply IH. exact Hc.
  - destruct Hc as (sk & Hsk & Hl & Hc). exists sk.
    pose proof (lookup_lt_Some _ _ _ Hsk) as Hlt.
    split; [rewrite lookup_app_l by exact Hlt; exact Hsk |].
    split; [exact Hl |].
    rewrite insert_app_l by exact Hlt. apply IH. exact Hc.
  - destruct Hc as (sk & Hsk & Hl & Hc). exists sk.
    pose proof (lookup_lt_Some _ _ _ Hsk) as Hlt.
    split; [rewrite lookup_app_l by exact Hlt; exact Hsk |].
    split; [exact Hl |].
    rewrite insert_app_l by exact Hlt. apply IH. exact Hc.
  - exact Hc.
Qed.

Lemma insert_back (objs : list Skeleton) (r : nat) (sk a b : Skeleton) :
  objs !! r = Some sk → a = sk → <[r := a]> (<[r := b]> objs) = objs.
Proof.
  intros H ->. rewrite list_insert_insert_eq. apply list_insert_id. exact H.
Qed.

Lemma repeat_action_snoc (f : Tool → option Tool) (n : nat) (t : Tool) :
  repeat_action f (S n) t = repeat_action f n t ≫= f.
Proof.
  revert t. induction n as [|n IH]; intros t.
  - cbn. destruct (f t); reflexivity.
  - change (repeat_action f (S (S n)) t)
      with (f t ≫= repeat_action f (S n)).
    change (repeat_action f (S n) t) with (f t ≫= repeat_action f n).
    destruct (f t) as [t'|]; [|reflexivity]. cbn [mbind option_bind].
    apply IH.
Qed.

(** What [redo_action] does to the store depends on the store only. *)
Lemma redo_action_same_store (t u t' : Tool) :
  same_store t u → redo_action t = Some t' →
  ∃ u', redo_action u = Some u' ∧ same_store t' u'.
Proof.
  intros (Hh & Hs & Hl & Hr & Hi) H. unfold redo_action in *.
  rewrite <- Hi, <- Hr. destruct (image t) eqn:Ei; [|injection H as <-].
  2:{ exists u. split; [reflexivity |]. repeat split; congruence. }
  destruct (redo_stack t) as [|a redo] eqn:Er; [injection H as <-|].
  { exists u. split; [reflexivity |]. repeat split; congruence. }
  destruct a as [r | r part old new | r part old | l];
    unfold set_annotation, deref in *;
    cbn [heap set_logs skeletons annotation_history deleted_skeleton_ids]
      in *; rewrite <- ?Hh, <- ?Hs, <- ?Hl.
  - destruct (heap t !! r) as [sk|]; [|discriminate].
    cbn [mbind option_bind] in *. injection H as <-.
    eexists. split; [reflexivity |]. repeat split; cbn; congruence.
  - destruct (heap t !! r) as [sk|]; [|discriminate].
    cbn [mbind option_bind] in *. injection H as <-.
    eexists. split; [reflexivity |]. repeat split; cbn; congruence.
  - destruct (heap t !! r) as [sk|]; [|discriminate].
    cbn [mbind option_bind] in *. injection H as <-.
    eexists. split; [reflexivity |]. repeat split; cbn; congruence.
  - injection H as <-.
    eexists. split; [reflexivity |]. repeat split; cbn; congruence.
Qed.

Lemma repeat_redo_same_store (n : nat) (t u t' : Tool) :
  same_store t u → repeat_action redo_action n t = Some t' →
  ∃ u', repeat_action redo_action n u = Some u' ∧ same_store t' u'.
Proof.
  revert t u. induction n as [|n IH]; intros t u Hsame H.
  - injection H as <-. exists u. split; [reflexivity | exact Hsame].
  - cbn [repeat_action] in *.
    destruct (redo_action t) as [t1|] eqn:E; [|discriminate].
    destruct (redo_action_same_store t u t1 Hsame E) as (u1 & -> & Hs1).
    cbn [mbind option_bind] in *. eapply IH; eassumption.
Qed.

(** One undo followed by one redo. *)
Lemma undo_then_redo (t : Tool) (shape : Z * Z) (a : Action)
    (h : list Action) :
  image t = Some shape →
  annotation_history t = a :: h →
  consistent (a :: h) (heap t) (skeletons t) →
  ∃ t' t'',
    undo_action t = Some t'
    ∧ image t' = Some shape
    ∧ annotation_history t' = h
    ∧ redo_stack t' = a :: redo_stack t
    ∧ consistent h (heap t') (skeletons t')
    ∧ redo_action t' = Some t''
    ∧ same_store t'' t.
Proof.
  intros Hi Hh Hc. unfold undo_action. rewrite Hi, Hh.
  destruct a as [r | r part old new | r part old | l]; cbn [consistent] in Hc.
  - destruct Hc as (sks' & Hs & Hr & Hlt & Hc).
    destruct (lookup_lt_is_Some_2 _ _ Hlt) as [sk Hsk].
    unfold deref. cbn [heap set_logs skeletons]. rewrite Hsk, Hs.
    rewrite list_remove_last by exact Hr. cbn [mbind option_bind].
    eexists _, _. split; [reflexivity |].
    split; [exact Hi |]. split; [reflexivity |]. split; [reflexivity |].
    split; [exact Hc |].
    unfold redo_action. cbn [image set_deleted_skeleton_ids set_skeletons
      set_logs redo_stack]. rewrite Hi. unfold deref.
    cbn [heap set_logs set_deleted_skeleton_ids set_skeletons]. rewrite Hsk.
    cbn [mbind option_bind]. split; [reflexivity |].
    repeat split; cbn; congruence.
  - destruct Hc as (sk & Hsk & Hl & Hc).
    unfold set_annotation, deref. cbn [heap set_logs]. rewrite Hsk.
    cbn [mbind option_bind].
    pose proof (lookup_lt_Some _ _ _ Hsk) as Hlt.
    eexists _, _. split; [reflexivity |].
    split; [exact Hi |]. split; [reflexivity |]. split; [reflexivity |].
    split; [exact Hc |].
    unfold redo_action. cbn [image set_heap set_logs redo_stack]. rewrite Hi.
    unfold set_annotation, deref. cbn [heap set_heap set_logs].
    rewrite list_lookup_insert_eq by exact Hlt. cbn [mbind option_bind].
    split; [reflexivity |].
    repeat split; cbn; try congruence.
    apply (insert_back _ _ sk); [exact Hsk |].
    apply (with_annotation_undo part (Some new) old sk Hl).
  - destruct Hc as (sk & Hsk & Hl & Hc).
    unfold set_annotation, deref. cbn [heap set_logs]. rewrite Hsk.
    cbn [mbind option_bind].
    pose proof (lookup_lt_Some _ _ _ Hsk) as Hlt.
    eexists _, _. split; [reflexivity |].
    split; [exact Hi |]. split; [reflexivity |]. split; [reflexivity |].
    split; [exact Hc |].
    unfold redo_action. cbn [image set_heap set_logs redo_stack]. rewrite Hi.
    unfold set_annotation, deref. cbn [heap set_heap set_logs].
    rewrite list_lookup_insert_eq by exact Hlt. cbn [mbind option_bind].
    split; [reflexivity |].
    repeat split; cbn; try congruence.
    apply (insert_back _ _ sk); [exact Hsk |].
    apply (with_annotation_undo part None old sk Hl).
  - contradiction.
Qed.

(** Undoing the whole log and redoing it. *)
Lemma undo_all_redo_all (h : list Action) (t : Tool) (shape : Z * Z) :
  image t = Some shape →
  annotation_history t = h →
  consistent h (heap t) (skeletons t) →
  ∃ t1 t2,
    repeat_action undo_action (length h) t = Some t1
    ∧ annotation_history t1 = []
    ∧ redo_stack t1 = rev h ++ redo_stack t
    ∧ repeat_action redo_action (length h) t1 = Some t2
    ∧ same_store t2 t.
Proof.
  revert t. induction h as [|a h IH]; intros t Hi Hh Hc.
  - exists t, t. repeat split; auto.
  - destruct (undo_then_redo t shape a h Hi Hh Hc)
      as (t' & t'' & Hu & Hi' & Hh' & Hr' & Hc' & Hre & Hsame).
    destruct (IH t' Hi' Hh' Hc') as (t1 & t2 & Hu1 & Hh1 & Hr1 & Hre1 & Hs2).
    assert (same_store t' t2) as Hs2'.
    { destruct Hs2 as (? & ? & ? & ? & ?). repeat split; congruence. }
    destruct (redo_action_same_store t' t2 t'' Hs2' Hre) as (u & Hu2 & Hsu).
    exists t1, u. cbn [length]. split.
    { cbn [repeat_action]. rewrite Hu. exact Hu1. }
    split; [exact Hh1 |]. split.
    { rewrite Hr1, Hr'. cbn [rev]. rewrite <- app_assoc. reflexivity. }
    split.
    { rewrite repeat_action_snoc, Hre1. exact Hu2. }
    destruct Hsu as (? & ? & ? & ? & ?), Hsame as (? & ? & ? & ? & ?).
    repeat split; congruence.
Qed.

Lemma add_new_skeleton_edit_inv (t t' : Tool) :
  edit_inv t → add_new_skeleton t = Some t' → edit_inv t'.
Proof.
  intros (Hi & Hr & Hok & Hc) H.
  pose proof (add_new_skeleton_refs_ok t t' H Hok) as Hok'.
  unfold add_new_skeleton in H. destruct Hi as [[height width] Hi].
  rewrite Hi in H.
  destruct (get_next_skeleton_id t) as [m|]; [|discriminate].
  cbn [mbind option_bind] in H. injection H as <-.
  split; [exists (height, width); exact Hi |].
  split; [reflexivity |]. split; [exact Hok' |].
  cbn [annotation_history set_logs heap skeletons set_selected_skeleton
         set_skeletons set_heap consistent].
  exists (skeletons t). split; [reflexivity |]. split.
  - intros Hin. pose proof (bounded_skeletons _ _ Hok) as Hb.
    rewrite Forall_forall in Hb. apply Hb in Hin. lia.
  - split; [rewrite length_app; cbn; lia |].
    apply consistent_grow. exact Hc.
Qed.

Lemma mousePressEvent_store (ex ey : Z) (t t' : Tool) :
  mousePressEvent ex ey t = Some t' →
  heap t' = heap t ∧ skeletons t' = skeletons t ∧ image t' = image t
  ∧ annotation_history t' = annotation_history t
  ∧ redo_stack t' = redo_stack t.
Proof.
  unfold mousePressEvent. intros H.
  destruct (image t) eqn:Ei; [|injection H as <-; repeat split; exact Ei].
  destruct (to_image_space t ex ey) as [x y].
  destruct (hit_test t x y (skeletons t)) as [[[r part]|]|];
    cbn [mbind option_bind] in H;
    [| |discriminate]; injection H as <-; repeat split; exact Ei.
Qed.

Lemma set_annotation_edit (t t1 : Tool) (r : nat) (part : string)
    (old v : option Coords) (sk : Skeleton) (a : Action) :
  edit_inv t →
  heap t !! r = Some sk →
  dict_lookup part (annotations sk) = Some old →
  set_annotation r part v t = Some t1 →
  (∀ objs sks,
     consistent (a :: annotation_history t) objs sks
     ↔ ∃ sk', objs !! r = Some sk'
              ∧ dict_lookup part (annotations sk') = Some v
              ∧ consistent (annotation_history t)
                  (<[r := with_annotation part old sk']> objs) sks) →
  consistent (a :: annotation_history t) (heap t1) (skeletons t1).
Proof.
  intros (Hi & Hr & Hok & Hc) Hsk Hold Hset Ha.
  apply set_annotation_Some in Hset as (sk0 & Hsk0 & ->).
  assert (sk0 = sk) as -> by congruence.
  pose proof (lookup_lt_Some _ _ _ Hsk) as Hlt.
  apply Ha. cbn [heap set_heap skeletons].
  exists (with_annotation part v sk).
  split; [apply list_lookup_insert_eq; exact Hlt |].
  split; [apply with_annotation_lookup |].
  rewrite (insert_back _ _ sk); [exact Hc | exact Hsk |].
  apply with_annotation_undo. exact Hold.
Qed.

Lemma mouseMoveEvent_edit_inv (ex ey : Z) (t t' : Tool) :
  edit_inv t → mouseMoveEvent ex ey t = Some t' → edit_inv t'.
Proof.
  intros Hinv H.
  pose proof Hinv as (Hi & Hr & Hok & Hc).
  pose proof (mouseMoveEvent_refs_ok ex ey t t' H Hok) as Hok'.
  unfold mouseMoveEvent in H.
  destruct (dragging_keypoint (image_label t)); [|congruence].
  destruct (label_selected_keypoint (image_label t)) as [part|]; [|congruence].
  destruct (label_selected_skeleton (image_label t)) as [r|]; [|congruence].
  destruct (to_image_space t ex ey) as [x y].
  destruct Hi as [[height width] Hi]. rewrite Hi in H.
  cbn [mbind option_bind] in H. unfold deref in H.
  destruct (heap t !! r) as [sk|] eqn:Hsk; [|discriminate].
  cbn [mbind option_bind] in H.
  destruct (dict_lookup part (annotations sk)) as [old|] eqn:Hold;
    [|discriminate].
  cbn [mbind option_bind] in H.
  match type of H with
  | context [set_annotation ?a ?b ?c ?d] =>
      destruct (set_annotation a b c d) as [t1|] eqn:E1
  end; [|discriminate].
  cbn [mbind option_bind] in H. injection H as <-.
  split.
  { apply set_annotation_Some in E1 as (? & _ & ->). cbn. rewrite Hi. eauto. }
  split; [reflexivity |]. split; [exact Hok' |].
  cbn [annotation_history set_logs heap skeletons].
  eapply set_annotation_edit; try eassumption.
  intros objs sks. reflexivity.
Qed.

Lemma delete_key_edit_inv (t t' : Tool) :
  edit_inv t → delete_key t = Some t' → edit_inv t'.
Proof.
  intros Hinv H.
  pose proof Hinv as (Hi & Hr & Hok & Hc).
  pose proof (delete_key_refs_ok t t' H Hok) as Hok'.
  unfold delete_key in H.
  destruct (selected_skeleton t) as [r|];
    [|injection H as <-; exact Hinv].
  destruct (selected_keypoint t) as [part|];
    [|injection H as <-; exact Hinv].
  unfold deref in H.
  destruct (heap t !! r) as [sk|] eqn:Hsk; [|discriminate].
  cbn [mbind option_bind] in H.
  destruct (dict_lookup part (annotations sk)) as [old|] eqn:Hold;
    [|discriminate].
  cbn [mbind option_bind] in H.
  destruct (set_annotation r part None t) as [t1|] eqn:E1; [|discriminate].
  cbn [mbind option_bind] in H. injection H as <-.
  split.
  { apply set_annotation_Some in E1 as (? & _ & ->). cbn. exact Hi. }
  split; [reflexivity |]. split; [exact Hok' |].
  cbn [annotation_history set_logs heap skeletons set_selected_keypoint].
  eapply set_annotation_edit; try eassumption.
  intros objs sks. reflexivity.
Qed.

Section EditSequences.
Variable label_file_path : string → string → string.

Lemma step_edit_inv (e : Event) (t t' : Tool) :
  edit_event e → edit_inv t → step label_file_path e t = Some t' →
  edit_inv t'.
Proof.
  intros He Hinv H. destruct e; try contradiction; cbn [step] in H.
  - unfold set_skeleton_type in H.
    destruct (image t) eqn:Ei; [|injection H as <-; exact Hinv].
    eapply add_new_skeleton_edit_inv; [|exact H].
    destruct Hinv as (Hi & Hr & Hok & Hc).
    split; [exact Hi |]. split; [exact Hr |].
    split; [destruct Hok; split; assumption | exact Hc].
  - destruct Hinv as (Hi & Hr & Hok & Hc).
    pose proof (mousePressEvent_refs_ok _ _ _ _ H Hok) as Hok'.
    destruct (mousePressEvent_store _ _ _ _ H)
      as (Hh & Hs & Him & Hl & Hrd).
    split; [rewrite Him; exact Hi |]. split; [congruence |].
    split; [exact Hok' |]. rewrite Hh, Hs, Hl. exact Hc.
  - eapply mouseMoveEvent_edit_inv; eassumption.
  - injection H as <-. destruct Hinv as (Hi & Hr & Hok & Hc).
    split; [exact Hi |]. split; [exact Hr |].
    split; [destruct Hok; split; assumption | exact Hc].
  - injection H as <-. destruct Hinv as (Hi & Hr & Hok & Hc).
    split; [exact Hi |]. split; [exact Hr |].
    split; [destruct Hok; split; assumption | exact Hc].
  - injection H as <-. destruct Hinv as (Hi & Hr & Hok & Hc).
    split; [exact Hi |]. split; [exact Hr |].
    split; [destruct Hok; split; assumption | exact Hc].
  - eapply delete_key_edit_inv; eassumption.
Qed.

Lemma run_edit_inv (es : list Event) (t t' : Tool) :
  Forall edit_event es → edit_inv t → run label_file_path es t = Some t' →
  edit_inv t'.
Proof.
  intros Hes. revert t. induction Hes as [|e es He _ IH]; intros t Hinv H.
  - injection H as <-. exact Hinv.
  - cbn [run] in H.
    destruct (step label_file_path e t) as [t1|] eqn:E; [|discriminate].
    cbn [mbind option_bind] in H.
    eapply IH; [|exact H]. eapply step_edit_inv; eassumption.
Qed.

(** C2: after any sequence of additions, drag moves and deletions on a
    freshly loaded image, undoing until the undo log is empty and then
    redoing until the redo log is empty gives back the object table and
    the skeleton list, hence every live skeleton with its id, type and
    key points, and the undo log. *)
Theorem undo_all_then_redo_all_restores (t0 t : Tool) (es : list Event) :
  fresh t0 →
  Forall edit_event es →
  run label_file_path es t0 = Some t →
  ∃ t1 t2,
    undo_all t = Some t1
    ∧ annotation_history t1 = []
    ∧ redo_all t1 = Some t2
    ∧ redo_stack t2 = []
    ∧ heap t2 = heap t
    ∧ skeletons t2 = skeletons t
    ∧ live_skeletons t2 = live_skeletons t
    ∧ annotation_history t2 = annotation_history t.
Proof.
  intros (Hi0 & Hh0 & Hr0 & Hok0) Hes Hrun.
  assert (edit_inv t0) as Hinv0.
  { split; [exact Hi0 |]. split; [exact Hr0 |]. split; [exact Hok0 |].
    rewrite Hh0. exact I. }
  destruct (run_edit_inv es t0 t Hes Hinv0 Hrun)
    as ([shape Hi] & Hr & Hok & Hc).
  destruct (undo_all_redo_all (annotation_history t) t shape Hi eq_refl Hc)
    as (t1 & t2 & Hu & Hh1 & Hr1 & Hre & Hh & Hs & Hl & Hrd & _).
  exists t1, t2. split; [exact Hu |]. split; [exact Hh1 |].
  split.
  { unfold redo_all. rewrite Hr1, Hr, app_nil_r, length_rev. exact Hre. }
  split; [congruence |]. split; [exact Hh |]. split; [exact Hs |].
  split; [|exact Hl].
  unfold live_skeletons, deref. rewrite Hh, Hs. reflexivity.
Qed.
End EditSequences.

Lemma empty_image_fresh : fresh empty_image.
Proof.
  split; [eexists; reflexivity |]. split; [reflexivity |].
  split; [reflexivity |]. split; cbn; try constructor; intros ? [=].
Qed.

Lemma undo_all_then_redo_all_restores_witness :
  ∃ t t1 t2,
    run (λ a b, a) sample_edits empty_image = Some t
    ∧ length (annotation_history t) = 6%nat
    ∧ undo_all t = Some t1
    ∧ annotation_history t1 = []
    ∧ redo_all t1 = Some t2
    ∧ redo_stack t2 = []
    ∧ live_skeletons t2 = live_skeletons t.
Proof.
  destruct (run (λ a b, a) sample_edits empty_image) as [t|] eqn:Hrun;
    [|vm_compute in Hrun; discriminate].
  destruct (undo_all_then_redo_all_restores (λ a b, a) empty_image t
              sample_edits empty_image_fresh
              ltac:(repeat constructor) Hrun)
    as (t1 & t2 & H1 & H2 & H3 & H4 & _ & _ & H5 & _).
  exists t, t1, t2. split; [reflexivity |].
  split; [vm_compute in Hrun; injection Hrun as <-; reflexivity |].
  repeat split; assumption.
Defined.

Section Saving.
Variable label_file_path : string → string → string.

(** C7: with a save folder and an image, saving never changes anything
    but the disk; and when the skeleton list is empty or no skeleton has
    a present key point, the annotation file of the image is not written
    and, if it existed, is removed. *)
Theorem save_annotations_nothing_to_persist (t : Tool) (folder : string)
    (shape : Z * Z) (sks : list Skeleton) :
  folder_selected t = Some folder →
  image t = Some shape →
  live_skeletons t = Some sks →
  ∃ t',
    save_annotations label_file_path t = Some t'
    ∧ t' = set_files (files t') t
    ∧ (Forall nothing_present sks →
       files t'
       = delete (label_file_path folder (image_file_path t)) (files t)
       ∧ files t' !! label_file_path folder (image_file_path t) = None).
Proof.
  intros Hf Hi Hl. destruct shape as [height width].
  unfold save_annotations. rewrite Hf, Hi.
  destruct (skeletons t) as [|r rs] eqn:Hs.
  - eexists. split; [reflexivity |]. split; [reflexivity |].
    intros _. split; [reflexivity | apply lookup_delete_eq].
  - rewrite Hl. cbn [mbind option_bind].
    eexists. split; [reflexivity |]. split; [reflexivity |].
    intros Hn. cbn [files set_files]. unfold save_yolo_format.
    rewrite yolo_data_omap.
    assert (omap (yolo_format_line width height) sks = []) as ->.
    { clear -Hn. induction Hn as [|sk sks Hsk _ IH]; [reflexivity |].
      cbn [omap list_omap].
      rewrite (no_present_no_line width height sk Hsk). exact IH. }
    split; [reflexivity | apply lookup_delete_eq].
Qed.
End Saving.

Lemma save_annotations_nothing_to_persist_witness :
  ∃ t',
    save_annotations example_label_path all_deleted = Some t'
    ∧ t' = set_files (files t') all_deleted
    ∧ files all_deleted !! example_label_path "out" "a.png"
      = Some (lit "0 0.5 0.5 0 0 0.5 0.5")
    ∧ files t' !! example_label_path "out" "a.png" = None.
Proof.
  destruct (save_annotations_nothing_to_persist example_label_path
              all_deleted "out" (480, 640) (heap all_deleted)
              eq_refl eq_refl eq_refl) as (t' & Hs & Hm & Hd).
  exists t'. split; [exact Hs |]. split; [exact Hm |].
  split; [reflexivity |].
  apply Hd. constructor; [|constructor].
  intros part Hp. cbn in Hp.
  repeat (apply elem_of_cons in Hp as [-> | Hp]; [reflexivity |]).
  inversion Hp.
Defined.

(** ** Positions outside the image *)

(** C8 fails on the code: on a 100 by 100 image the first thing the user
    can do, adding an LMG skeleton, puts the butt at (-50, 50). *)
Theorem add_new_skeleton_negative_position :
  ∃ t sk,
    run example_label_path
      [SelectImageFolder "a.png" (100, 100); SetSkeletonType LMG]
      (init_tool ∅) = Some t
    ∧ Reachable example_label_path t
    ∧ live_skeletons t = Some [sk]
    ∧ get_coords "butt" (annotations sk)
      = Some (inject_Z (-50), inject_Z 50)
    ∧ (inject_Z (-50) < 0)%Q.
Proof.
  destruct (run example_label_path
              [SelectImageFolder "a.png" (100, 100); SetSkeletonType LMG]
              (init_tool ∅)) as [t|] eqn:Hrun;
    [|vm_compute in Hrun; discriminate].
  assert (Reachable example_label_path t) as Hreach.
  { eapply run_Reachable; [apply Reachable_init | | exact Hrun].
    repeat constructor. }
  vm_compute in Hrun. injection Hrun as <-.
  eexists _, _. split; [reflexivity |]. split; [exact Hreach |].
  split; [reflexivity |]. split; reflexivity.
Qed.

(** ** What loading an image leaves behind *)






Section Loading.
Variable label_file_path : string → string → string.


End Loading.


(** ** The view *)



Section View.
Variable label_file_path : string → string → string.


End View.





(** ** Identifiers of loaded skeletons *)






(** ** Positions read from a file *)










(** ** Lines with too few or too many fields *)





(** ** Undoing the last edit *)





Section UndoLast.
Variable label_file_path : string → string → string.


End UndoLast.



(** ** Reuse of identifiers *)





(** ** The bounding box *)






(** ** Selections and the keys of a skeleton *)






(** The sequence of user actions that leads there: load an image, add an
    LMG skeleton, click on its cover, add a rifle skeleton and press
    Delete. *)
Lemma stale_selection_run :
  run example_label_path
    [SelectImageFolder "a.png" (480, 640); SetSkeletonType LMG;
     MousePress 320 240; MouseRelease; SetSkeletonType Rifle; KeyDelete]
    (init_tool ∅) = None.
Proof. vm_compute. reflexivity. Qed.

(** ** Dragging never raises *)









Section Dragging.
Variable label_file_path : string → string → string.




End Dragging.


(** ** Extracting frames *)

Lemma numbered_snoc {A} (first : Z) (l : list A) (x : A) :
  numbered first (l ++ [x])
  = numbered first l ++ [(first + Z.of_nat (length l), x)].
Proof.
  unfold numbered. rewrite length_app. cbn [length].
  replace (Z.of_nat (length l + 1)) with (Z.of_nat (length l) + 1) by lia.
  rewrite seqZ_app by lia. cbn.
  rewrite zip_with_app by (rewrite length_seqZ; lia). reflexivity.
Qed.







(** ** Moving between images *)




